(** * Reconciliation engine of [data_quality_reconciliation.py]

    A shallow embedding of the script: the frame [df] read from the CSV is a
    list of rows, every derived table is a list of records, the CSV files the
    script writes are the log of a small writer/error monad, and the wall
    clock read by [datetime.now()] is an explicit argument of the run. *)

From stdpp Require Import base option list strings pretty gmap.
From Stdlib Require Import Ascii ZArith Floats.PrimFloat Floats.FloatOps Floats.SpecFloat
  Floats.FloatAxioms.

Local Open Scope string_scope.
Local Open Scope Z_scope.

(** ** Values held by a frame *)

(** A value of a pandas column: [None]/[NaN]/[NaT] in an object column, an
    [int64], a [float64] (whose NaN is the missing value of a numeric
    column), a [str], or a parsed timestamp (nanoseconds). *)
Inductive cell :=
  | CNone
  | CInt (n : Z)
  | CFloat (x : float)
  | CStr (s : string)
  | CDate (ns : Z).

(** [pd.notnull(x)] *)
Definition notnull (c : cell) : bool :=
  match c with
  | CNone => false
  | CFloat x => negb (PrimFloat.is_nan x)
  | _ => true
  end.

(** [pd.isnull(x)] *)
Definition isnull (c : cell) : bool := negb (notnull c).

(** ** Numeric columns *)

(** A value of a numeric column as [pd.to_numeric(..., errors='coerce')]
    gives it: an integer (an [int64]), or a float, NaN where the value
    could not be coerced. *)
Inductive num :=
  | NInt (n : Z)
  | NFloat (x : float).

(** The value of an [int64] operation: the result modulo 2^64, signed. *)
Definition wrap64 (z : Z) : Z := (z + 2 ^ 63) mod 2 ^ 64 - 2 ^ 63.

(** An integer as a [float64], rounded to nearest, ties to even. *)
Definition float_of_int (n : Z) : float :=
  SF2Prim (binary_normalize prec emax n 0 false).

Definition is_int (v : num) : bool :=
  match v with
  | NInt _ => true
  | NFloat _ => false
  end.

(** The column is [int64] when all its values are integers, and [float64]
    otherwise. *)
Definition int64_column (col : list num) : bool := forallb is_int col.

(** A value of an [int64] column in a [float64] column. *)
Definition astype_float (v : num) : float :=
  match v with
  | NInt n => float_of_int n
  | NFloat x => x
  end.

(** A value of the product of two columns: an [int64] product, which wraps
    around, when both columns are [int64], and a [float64] product
    otherwise. *)
Definition multiply (int64 : bool) (q p : num) : num :=
  match int64, q, p with
  | true, NInt a, NInt b => NInt (wrap64 (a * b))
  | _, _, _ => NFloat (PrimFloat.mul (astype_float q) (astype_float p))
  end.

(** [v < 0] *)
Definition lt_zero (v : num) : bool :=
  match v with
  | NInt n => n <? 0
  | NFloat x => PrimFloat.ltb x 0%float
  end.

(** [v] as a value of a frame. *)
Definition num_cell (v : num) : cell :=
  match v with
  | NInt n => CInt n
  | NFloat x => CFloat x
  end.

(** ** Python exceptions and results *)

Inductive py_error := ValueError | OverflowError | TypeError.

Inductive result (A : Type) :=
  | Ok (a : A)
  | Raise (e : py_error).
Arguments Ok {A} a.
Arguments Raise {A} e.

Global Instance result_ret : MRet result := λ A a, Ok a.
Global Instance result_bind : MBind result := λ A B k m,
  match m with
  | Ok a => k a
  | Raise e => Raise e
  end.
Global Instance result_fmap : FMap result := λ A B f m,
  match m with
  | Ok a => Ok (f a)
  | Raise e => Raise e
  end.

(** ** Python's [int(x)] *)

(** [int] of a float truncates toward zero; NaN and the infinities raise. *)
Definition int_of_float (x : float) : result Z :=
  match Prim2SF x with
  | S754_nan => Raise ValueError
  | S754_infinity _ => Raise OverflowError
  | S754_zero _ => Ok 0
  | S754_finite sign m e =>
      let mag := if 0 <=? e then Z.pos m * 2 ^ e else Z.pos m / 2 ^ (- e) in
      Ok (if sign then - mag else mag)
  end.

(** A string holds the UTF-8 bytes of the text of a cell. [utf8_decode]
    gives its code points. *)
Definition continuation_byte (c : ascii) : option N :=
  let b := N_of_ascii c in
  if ((128 <=? b) && (b <? 192))%N then Some (b - 128)%N else None.

Fixpoint utf8_decode (s : string) : option (list N) :=
  match s with
  | EmptyString => Some []
  | String c0 s1 =>
      let b0 := N_of_ascii c0 in
      if (b0 <? 128)%N then cons b0 <$> utf8_decode s1
      else if (b0 <? 192)%N then None
      else if (b0 <? 224)%N then
        match s1 with
        | String c1 s2 =>
            b1 ← continuation_byte c1;
            cons ((b0 - 192) * 64 + b1)%N <$> utf8_decode s2
        | _ => None
        end
      else if (b0 <? 240)%N then
        match s1 with
        | String c1 (String c2 s3) =>
            b1 ← continuation_byte c1;
            b2 ← continuation_byte c2;
            cons (((b0 - 224) * 64 + b1) * 64 + b2)%N <$> utf8_decode s3
        | _ => None
        end
      else if (b0 <? 248)%N then
        match s1 with
        | String c1 (String c2 (String c3 s4)) =>
            b1 ← continuation_byte c1;
            b2 ← continuation_byte c2;
            b3 ← continuation_byte c3;
            cons ((((b0 - 240) * 64 + b1) * 64 + b2) * 64 + b3)%N
              <$> utf8_decode s4
        | _ => None
        end
      else None
  end.

(** The white space of Unicode beyond ASCII. *)
Definition unicode_spaces : list N :=
  [ 133; 160; 5760; 8192; 8193; 8194; 8195; 8196; 8197; 8198; 8199; 8200;
    8201; 8202; 8232; 8233; 8239; 8287; 12288 ]%N.

(** The digit zero of every decimal script of Unicode 14 beyond ASCII; its
    nine followers are the digits one to nine. *)
Definition decimal_zeros : list N :=
  [ 1632; 1776; 1984; 2406; 2534; 2662; 2790; 2918; 3046; 3174; 3302; 3430;
    3558; 3664; 3792; 3872; 4160; 4240; 6112; 6160; 6470; 6608; 6784; 6800;
    6992; 7088; 7232; 7248; 42528; 43216; 43264; 43472; 43504; 43600; 44016;
    65296; 66720; 68912; 69734; 69872; 69942; 70096; 70384; 70736; 70864;
    71248; 71360; 71472; 71904; 72016; 72784; 73040; 73120; 92768; 92864;
    93008; 120782; 120792; 120802; 120812; 120822; 123200; 123632; 125264;
    130032 ]%N.

Definition decimal_value (cp : N) : option N :=
  (λ z, cp - z)%N
    <$> head (filter (λ z, (z ≤ cp)%N ∧ (cp < z + 10)%N) decimal_zeros).

(** What [int] makes of a code point before it reads the literal: itself
    below 127, a blank for white space, the ASCII digit for a decimal digit;
    any other character makes the literal invalid. *)
Definition to_ascii (cp : N) : option ascii :=
  if (cp <? 127)%N then Some (ascii_of_N cp)
  else if bool_decide (cp ∈ unicode_spaces) then Some " "%char
  else (λ d, ascii_of_N (48 + d)) <$> decimal_value cp.

Definition transform_decimal_and_space (s : string) : option string :=
  cps ← utf8_decode s;
  String.string_of_list_ascii <$> mapM to_ascii cps.

(** The ASCII characters [int] strips around a literal. *)
Definition is_py_space (c : ascii) : bool :=
  let n := nat_of_ascii c in
  ((9 <=? n) && (n <=? 13) || (n =? 32))%nat.

Fixpoint lstrip (s : string) : string :=
  match s with
  | String c s' => if is_py_space c then lstrip s' else s
  | EmptyString => EmptyString
  end.

Definition strip (s : string) : string :=
  String.rev (lstrip (String.rev (lstrip s))).

Definition digit_of (c : ascii) : option Z :=
  let n := nat_of_ascii c in
  if ((48 <=? n) && (n <=? 57))%nat then Some (Z.of_nat n - 48) else None.

(** Where the scanner of a decimal literal stands: nothing read yet, just
    after a digit, or just after an underscore (which a digit must follow). *)
Inductive lit_state := LitStart | LitDigit | LitUnderscore.

Fixpoint digits_value (st : lit_state) (acc : Z) (s : string) : option Z :=
  match s with
  | EmptyString =>
      match st with
      | LitDigit => Some acc
      | _ => None
      end
  | String c s' =>
      match digit_of c with
      | Some d => digits_value LitDigit (10 * acc + d) s'
      | None =>
          if Ascii.eqb c "_" then
            match st with
            | LitDigit => digits_value LitUnderscore acc s'
            | _ => None
            end
          else None
      end
  end.

(** The digits of a literal, underscores left out. *)
Fixpoint digit_count (s : string) : N :=
  match s with
  | EmptyString => 0
  | String c s' =>
      (match digit_of c with Some _ => 1 | None => 0 end + digit_count s')%N
  end.

(** The longest decimal literal [int] reads ([sys.int_max_str_digits]). *)
Definition max_str_digits : N := 4300.

(** [int(s)] for a string, base 10: surrounding white space, an optional
    sign, then at most [max_str_digits] digits with single underscores
    between them. *)
Definition int_of_str (s : string) : result Z :=
  match transform_decimal_and_space s with
  | None => Raise ValueError
  | Some text =>
      let body := strip text in
      let '(neg, ds) :=
        match body with
        | String "-" r => (true, r)
        | String "+" r => (false, r)
        | _ => (false, body)
        end in
      match digits_value LitStart 0 ds with
      | Some v =>
          if (max_str_digits <? digit_count ds)%N then Raise ValueError
          else Ok (if neg then - v else v)
      | None => Raise ValueError
      end
  end.

Definition py_int (c : cell) : result Z :=
  match c with
  | CInt n => Ok n
  | CFloat x => int_of_float x
  | CStr s => int_of_str s
  | CNone | CDate _ => Raise TypeError
  end.

(** [str(n)] for an integer of magnitude below 10^4300: its decimal digits,
    a minus sign before them when negative. From 10^4300 on [str] raises;
    the script applies it only to what [int] gave of a cell, which is below
    that ([py_int_str_limit]). *)
Definition py_str_int (n : Z) : string := pretty n.

(** ** The script monad: CSV files written so far, and a result *)

Inductive table_name :=
  | transactions_csv
  | master_records_csv
  | reconciliation_rules_csv
  | data_quality_report_csv
  | reconciliation_results_csv
  | exceptions_report_csv.

Global Instance table_name_eq_dec : EqDecision table_name.
Proof. solve_decision. Defined.

(** ** Tables *)

(** A row of [df] after [read_csv] and the lower-casing of the column names.
    [invoice] is read with [dtype=str]: a string, or missing. [quantity] and
    [price] hold the values [pd.to_numeric(..., errors='coerce')] gives. *)
Record RawRow := {
  invoice : option string;
  stockcode : cell;
  description : cell;
  quantity : num;
  invoicedate : cell;
  price : num;
  customer : cell;
  country : cell
}.

Record Transaction := {
  txn_id : string;
  customer_id : option string;
  amount : num;
  txn_date : cell;
  t_invoice : option string;
  t_stockcode : cell;
  t_description : cell;
  t_country : cell
}.

Record MasterRecord := {
  m_customer_id : option string;
  customer_name : string;
  account_status : string
}.

Record ReconciliationRule := {
  rule : string;
  rule_description : string;
  rule_severity : string
}.

Record DataQualityFinding := {
  column : string;
  null_count : nat;
  table : string;
  timestamp : Z
}.

Record Exception := {
  rule_id : string;
  e_description : string;
  e_txn_id : string;
  e_customer_id : option string;
  severity : string
}.

Inductive merge_indicator := left_only | right_only | both.
Inductive MatchStatus := MATCHED | UNMATCHED.

Global Instance MatchStatus_eq_dec : EqDecision MatchStatus.
Proof. solve_decision. Defined.

(** A row of [reconciled]: the transaction's columns, the master's columns
    (missing when nothing joined), and [match_status]. *)
Record ReconciledTransaction := {
  r_txn : Transaction;
  r_customer_name : option string;
  r_account_status : option string;
  match_status : option MatchStatus
}.

Inductive csv_table :=
  | TTransactions (rows : list Transaction)
  | TMaster (rows : list MasterRecord)
  | TRules (rows : list ReconciliationRule)
  | TDataQuality (rows : list DataQualityFinding)
  | TReconciled (rows : list ReconciledTransaction)
  | TExceptions (rows : list Exception).

(** A computation of the script: the files written so far, in order, and the
    value reached or the exception that stopped the run. *)
Definition script (A : Type) : Type := (list (table_name * csv_table) * result A)%type.

Global Instance script_ret : MRet script := λ A a, ([], Ok a).
Global Instance script_bind : MBind script := λ A B k m,
  match m with
  | (w, Ok a) => let '(w', r) := k a in ((w ++ w')%list, r)
  | (w, Raise e) => (w, Raise e)
  end.

Definition lift {A} (r : result A) : script A := ([], r).
Definition to_csv (name : table_name) (t : csv_table) : script unit :=
  ([(name, t)], Ok tt).

(** ** STEP 1: the Record Normalizer *)

(** [Series.apply(f)]: [f] on every value in order; the first exception
    raised by [f] ends the call. *)
Fixpoint series_apply {A B} (f : A → result B) (l : list A) : result (list B) :=
  match l with
  | [] => Ok []
  | x :: l' =>
      y ← f x;
      ys ← series_apply f l';
      mret (y :: ys)
  end.

(** [lambda x: str(int(x)) if pd.notnull(x) else None] *)
Definition normalize_customer_id (x : cell) : result (option string) :=
  if notnull x then n ← py_int x; mret (Some (py_str_int n)) else mret None.

(** [astype(str)] on the invoice column: a missing invoice reads "nan". *)
Definition astype_str (inv : option string) : string := default "nan" inv.

(** [invoice.astype(str) + "-" + index.astype(str)] *)
Definition make_txn_id (inv : option string) (index : nat) : string :=
  astype_str inv +:+ "-" +:+ pretty index.

(** Whether [df['quantity'] * df['price']] is an [int64] column. *)
Definition int64_amount (df : list RawRow) : bool :=
  int64_column (quantity <$> df) && int64_column (price <$> df).

Definition make_transaction (int64 : bool) (index : nat)
    (p : RawRow * option string) : Transaction :=
  {| txn_id := make_txn_id (invoice p.1) index;
     customer_id := p.2;
     amount := multiply int64 (quantity p.1) (price p.1);
     txn_date := invoicedate p.1;
     t_invoice := invoice p.1;
     t_stockcode := stockcode p.1;
     t_description := description p.1;
     t_country := country p.1 |}.

Definition normalize (df : list RawRow) : result (list Transaction) :=
  customer_ids ← series_apply normalize_customer_id (customer <$> df);
  mret (imap (make_transaction (int64_amount df)) (zip df customer_ids)).

(** ** STEP 2: the Master Deriver *)

(** [dropna()] on the one-column frame of customer ids. *)
Definition dropna (l : list (option string)) : list string := omap id l.

(** [drop_duplicates()]: the first occurrence of every value stays. *)
Fixpoint drop_duplicates_from (seen : gset string) (l : list string) : list string :=
  match l with
  | [] => []
  | x :: l' =>
      if decide (x ∈ seen) then drop_duplicates_from seen l'
      else x :: drop_duplicates_from ({[x]} ∪ seen) l'
  end.

Definition drop_duplicates (l : list string) : list string :=
  drop_duplicates_from ∅ l.

Definition make_master (x : string) : MasterRecord :=
  {| m_customer_id := Some x;
     customer_name := "cust_" +:+ x;
     account_status := "ACTIVE" |}.

Definition derive_master (transactions : list Transaction) : list MasterRecord :=
  make_master <$> drop_duplicates (dropna (customer_id <$> transactions)).

(** ** STEP 3: the rule definitions *)

Definition rules_df : list ReconciliationRule :=
  [ {| rule := "R003"; rule_description := "Customer not found in master";
       rule_severity := "blocking" |};
    {| rule := "R004"; rule_description := "Negative transaction amount";
       rule_severity := "high" |};
    {| rule := "R005"; rule_description := "Unmatched transaction record";
       rule_severity := "high" |} ].

(** ** STEP 4: the Data-Quality Auditor *)

(** A frame as [check_nulls] sees it: named columns of values. *)
Definition frame : Type := list (string * list cell).

Definition opt_cell (o : option string) : cell := from_option CStr CNone o.

Definition transactions_frame (l : list Transaction) : frame :=
  [ ("txn_id", (CStr ∘ txn_id) <$> l);
    ("customer_id", (opt_cell ∘ customer_id) <$> l);
    ("amount", (num_cell ∘ amount) <$> l);
    ("txn_date", txn_date <$> l);
    ("invoice", (opt_cell ∘ t_invoice) <$> l);
    ("stockcode", t_stockcode <$> l);
    ("description", t_description <$> l);
    ("country", t_country <$> l) ].

Definition master_frame (l : list MasterRecord) : frame :=
  [ ("customer_id", (opt_cell ∘ m_customer_id) <$> l);
    ("customer_name", (CStr ∘ customer_name) <$> l);
    ("account_status", (CStr ∘ account_status) <$> l) ].

(** [check_nulls(df, name)]: one row per column with its count of nulls. *)
Definition check_nulls (df : frame) (name : string) : list (string * nat * string) :=
  (λ col, (col.1, length (filter (λ c, isnull c) col.2), name)) <$> df.

(** [pd.concat([...])] followed by [dq_report['timestamp'] = datetime.now()]. *)
Definition build_dq_report (now : Z) (master : list MasterRecord)
    (transactions : list Transaction) : list DataQualityFinding :=
  (λ r, {| column := r.1.1; null_count := r.1.2; table := r.2; timestamp := now |})
    <$> (check_nulls (master_frame master) "master_records"
         ++ check_nulls (transactions_frame transactions) "transactions")%list.

(** [duplicated(subset=[key], keep=False)]: the mask of the rows whose key
    occurs more than once. *)
Definition duplicated {K} `{EqDecision K} (keys : list K) : list bool :=
  (λ k, bool_decide (1 < length (filter (λ k', k' = k) keys))%nat) <$> keys.

(** [df[mask]] *)
Definition mask_rows {A} (rows : list A) (mask : list bool) : list A :=
  fst <$> filter (λ p, p.2 = true) (zip rows mask).

(** [df[df.duplicated(subset=[key], keep=False)]] *)
Definition duplicated_rows {A K} `{EqDecision K} (key : A → K) (rows : list A)
    : list A :=
  mask_rows rows (duplicated (key <$> rows)).

(** ** STEP 5: field-based rules *)

Definition notna (x : option string) : bool := bool_decide (is_Some x).
Definition isin (x : option string) (values : list (option string)) : bool :=
  bool_decide (x ∈ values).

Definition select_unknown_customers (transactions : list Transaction)
    (master : list MasterRecord) : list Transaction :=
  filter (λ t, notna (customer_id t)
               && negb (isin (customer_id t) (m_customer_id <$> master)))
         transactions.

Definition r003_exception (row : Transaction) : Exception :=
  {| rule_id := "R003";
     e_description := "Customer not found in master";
     e_txn_id := txn_id row;
     e_customer_id := customer_id row;
     severity := "blocking" |}.

Definition select_negative_txns (transactions : list Transaction) : list Transaction :=
  filter (λ t, lt_zero (amount t)) transactions.

Definition r004_exception (row : Transaction) : Exception :=
  {| rule_id := "R004";
     e_description := "Negative transaction amount (return or cancellation)";
     e_txn_id := txn_id row;
     e_customer_id := customer_id row;
     severity := "high" |}.

(** ** STEP 6: the Reconciler *)

(** [left.merge(right, on='customer_id', how='left', indicator=True)]: the
    rows of [left] in order, each once per row of [right] with an equal key
    (pandas lets a null key meet a null key), or once alone. *)
Definition merge_left (left : list Transaction) (right : list MasterRecord)
    : list (Transaction * option MasterRecord * merge_indicator) :=
  left ≫= λ t,
    match filter (λ m, m_customer_id m = customer_id t) right with
    | [] => [(t, None, left_only)]
    | ms => (λ m, (t, Some m, both)) <$> ms
    end.

(** [_merge.map({'both': 'MATCHED', 'left_only': 'UNMATCHED'})] *)
Definition status_of (ind : merge_indicator) : option MatchStatus :=
  match ind with
  | both => Some MATCHED
  | left_only => Some UNMATCHED
  | right_only => None
  end.

Definition reconcile (transactions : list Transaction) (master : list MasterRecord)
    : list ReconciledTransaction :=
  (λ j, {| r_txn := j.1.1;
           r_customer_name := customer_name <$> j.1.2;
           r_account_status := account_status <$> j.1.2;
           match_status := status_of j.2 |})
    <$> merge_left transactions master.

Definition select_unmatched (reconciled : list ReconciledTransaction)
    : list ReconciledTransaction :=
  filter (λ r, match_status r = Some UNMATCHED) reconciled.

Definition r005_exception (row : ReconciledTransaction) : Exception :=
  {| rule_id := "R005";
     e_description := "Unmatched transaction record";
     e_txn_id := txn_id (r_txn row);
     e_customer_id := customer_id (r_txn row);
     severity := "high" |}.

(** ** The whole script *)

(** The script's variables when it ends. *)
Record Output := {
  transactions : list Transaction;
  master : list MasterRecord;
  dq_report : list DataQualityFinding;
  dup_master : list MasterRecord;
  dup_txn : list Transaction;
  reconciled : list ReconciledTransaction;
  exceptions : list Exception
}.

Definition main (now : Z) (df : list RawRow) : script Output :=
  transactions ← lift (normalize df);
  to_csv transactions_csv (TTransactions transactions);;
  let master := derive_master transactions in
  to_csv master_records_csv (TMaster master);;
  to_csv reconciliation_rules_csv (TRules rules_df);;
  let dq_report := build_dq_report now master transactions in
  let dup_master := duplicated_rows m_customer_id master in
  let dup_txn := duplicated_rows txn_id transactions in
  to_csv data_quality_report_csv (TDataQuality dq_report);;
  let exceptions := [] in
  let unknown_customers := select_unknown_customers transactions master in
  let exceptions := (exceptions ++ (r003_exception <$> unknown_customers))%list in
  let negative_txns := select_negative_txns transactions in
  let exceptions := (exceptions ++ (r004_exception <$> negative_txns))%list in
  let reconciled := reconcile transactions master in
  let exceptions :=
    (exceptions ++ (r005_exception <$> select_unmatched reconciled))%list in
  to_csv reconciliation_results_csv (TReconciled reconciled);;
  to_csv exceptions_report_csv (TExceptions exceptions);;
  mret {| transactions := transactions; master := master;
          dq_report := dq_report; dup_master := dup_master; dup_txn := dup_txn;
          reconciled := reconciled; exceptions := exceptions |}.

(** * Definitions for the statements *)

(** Whether a hyphen occurs in a string. *)
Fixpoint has_dash (s : string) : bool :=
  match s with
  | EmptyString => false
  | String c s' => Ascii.eqb c "-" || has_dash s'
  end.

(** The rows a transaction joins with. *)
Definition partners (t : Transaction) (right : list MasterRecord) : list MasterRecord :=
  filter (λ m, m_customer_id m = customer_id t) right.

(** What the transaction [t] becomes when the keys of [right] are distinct. *)
Definition reconciled_row (right : list MasterRecord) (t : Transaction)
    : ReconciledTransaction :=
  match partners t right with
  | m :: _ =>
      {| r_txn := t; r_customer_name := Some (customer_name m);
         r_account_status := Some (account_status m);
         match_status := Some MATCHED |}
  | [] =>
      {| r_txn := t; r_customer_name := None; r_account_status := None;
         match_status := Some UNMATCHED |}
  end.

(** The files a run that ends well has written, in order. *)
Definition files_of (out : Output) : list (table_name * csv_table) :=
  [ (transactions_csv, TTransactions (transactions out));
    (master_records_csv, TMaster (master out));
    (reconciliation_rules_csv, TRules rules_df);
    (data_quality_report_csv, TDataQuality (dq_report out));
    (reconciliation_results_csv, TReconciled (reconciled out));
    (exceptions_report_csv, TExceptions (exceptions out)) ].

(** The place of a rule in the fixed order of evaluation. *)
Definition rule_rank (rid : string) : nat :=
  if decide (rid = "R003") then 0 else if decide (rid = "R004") then 1 else 2.

(** What two runs are compared on: the files written other than the
    data-quality report, and the four tables (or the exception raised). *)
Definition four_tables (s : script Output) :=
  (filter (λ f, f.1 ≠ data_quality_report_csv) s.1,
   (λ o, (transactions o, master o, reconciled o, exceptions o)) <$> s.2).

(** ** STEP 8: the summary *)

(** The four numbers the script prints, and shows again in its summary
    table: [len(transactions)], the rows of [reconciled] with each match
    status, and [len(exceptions)]. *)
Record Summary := {
  total_transactions : nat;
  matched : nat;
  unmatched : nat;
  total_exceptions : nat
}.

Definition summary (out : Output) : Summary :=
  {| total_transactions := length (transactions out);
     matched := length (filter (λ r, match_status r = Some MATCHED) (reconciled out));
     unmatched :=
       length (filter (λ r, match_status r = Some UNMATCHED) (reconciled out));
     total_exceptions := length (exceptions out) |}.

(** The scenario of the specification: two rows of invoice A1. *)
Definition scenario : list RawRow :=
  [ {| invoice := Some "A1"; stockcode := CStr "S1"; description := CStr "d";
       quantity := NFloat 2%float; invoicedate := CDate 0; price := NFloat 3%float;
       customer := CStr "7"; country := CStr "UK" |};
    {| invoice := Some "A1"; stockcode := CStr "S2"; description := CNone;
       quantity := NFloat (-1)%float; invoicedate := CDate 0; price := NFloat 5%float;
       customer := CNone; country := CStr "UK" |} ].

(** Two returns on one invoice, from a known customer. *)
Definition two_returns : list RawRow :=
  [ {| invoice := Some "C9"; stockcode := CStr "S1"; description := CStr "d";
       quantity := NFloat (-2)%float; invoicedate := CDate 0; price := NFloat 1.5%float;
       customer := CFloat 17850%float; country := CStr "UK" |};
    {| invoice := Some "C9"; stockcode := CStr "S2"; description := CStr "d";
       quantity := NFloat (-1)%float; invoicedate := CDate 0; price := NFloat 4%float;
       customer := CFloat 17850%float; country := CStr "UK" |} ].

(** The scenario with an alphanumeric customer identifier on its last row. *)
Definition alphanumeric_customer : list RawRow :=
  (scenario ++
   [ {| invoice := Some "A2"; stockcode := CStr "S3"; description := CStr "d";
        quantity := NFloat 1%float; invoicedate := CDate 0; price := NFloat 1%float;
        customer := CStr "A12"; country := CStr "UK" |} ])%list.

(** A row whose customer identifier is an infinite float. *)
Definition infinite_customer : RawRow :=
  {| invoice := Some "A3"; stockcode := CStr "S4"; description := CStr "d";
     quantity := NFloat 1%float; invoicedate := CDate 0; price := NFloat 1%float;
     customer := CFloat infinity; country := CStr "UK" |}.

(** A master table that holds the key "7" twice, and one that does not. *)
Definition master_with_duplicate : list MasterRecord :=
  [make_master "7"; make_master "7"].
Definition master_without_duplicate : list MasterRecord :=
  [make_master "7"; make_master "8"].

(** A transaction of customer "7", and one with no customer. *)
Definition txn_of_7 : Transaction :=
  {| txn_id := "A1-0"; customer_id := Some "7"; amount := NFloat 6%float;
     txn_date := CDate 0; t_invoice := Some "A1"; t_stockcode := CStr "S1";
     t_description := CStr "d"; t_country := CStr "UK" |}.
Definition txn_of_nobody : Transaction :=
  {| txn_id := "A1-1"; customer_id := None; amount := NFloat PrimFloat.nan;
     txn_date := CDate 0; t_invoice := Some "A1"; t_stockcode := CStr "S2";
     t_description := CNone; t_country := CStr "UK" |}.

(** Integer columns whose product leaves [int64] on the first row. *)
Definition int64_overflow : list RawRow :=
  [ {| invoice := Some "B1"; stockcode := CStr "S1"; description := CStr "d";
       quantity := NInt (2 ^ 62); invoicedate := CDate 0; price := NInt 2;
       customer := CInt 7; country := CStr "UK" |};
    {| invoice := Some "B1"; stockcode := CStr "S2"; description := CStr "d";
       quantity := NInt 3; invoicedate := CDate 0; price := NInt 4;
       customer := CInt 7; country := CStr "UK" |} ].

(** Two transactions under one [txn_id], and the same two under two. *)
Definition transactions_with_duplicate : list Transaction :=
  [txn_of_7; txn_of_7].
Definition transactions_without_duplicate : list Transaction :=
  [ txn_of_7;
    {| txn_id := "A1-1"; customer_id := Some "7"; amount := NFloat 6%float;
       txn_date := CDate 0; t_invoice := Some "A1"; t_stockcode := CStr "S1";
       t_description := CStr "d"; t_country := CStr "UK" |} ].

(** * Checks on concrete inputs *)

Example py_int_float :
  py_int (CFloat 17850%float) = Ok 17850
  ∧ py_int (CFloat (-3.75)%float) = Ok (-3)
  ∧ py_int (CFloat 1e20%float) = Ok 100000000000000000000
  ∧ py_int (CFloat infinity) = Raise OverflowError.
Proof. vm_compute. repeat split. Qed.

Example py_int_str :
  py_int (CStr " 1_000 ") = Ok 1000
  ∧ py_int (CStr "-42") = Ok (-42)
  ∧ py_int (CStr "+7") = Ok 7
  ∧ py_int (CStr "A12") = Raise ValueError
  ∧ py_int (CStr "17850.0") = Raise ValueError
  ∧ py_int (CStr "1__0") = Raise ValueError
  ∧ py_int (CStr "7_") = Raise ValueError
  ∧ py_int (CStr "- 7") = Raise ValueError
  ∧ py_int (CStr "") = Raise ValueError.
Proof. vm_compute. repeat split. Qed.

Example normalize_customer_id_ex :
  normalize_customer_id (CFloat 17850%float) = Ok (Some "17850")
  ∧ normalize_customer_id (CFloat PrimFloat.nan) = Ok None
  ∧ normalize_customer_id CNone = Ok None
  ∧ normalize_customer_id (CInt (-5)) = Ok (Some "-5").
Proof. vm_compute. repeat split. Qed.

(** [int] reads the decimal digits and the white space of Unicode; it does
    not strip the ASCII separators 28 to 31, and reads no literal of more
    than 4300 digits. *)
Example py_int_unicode :
  py_int (CStr "７") = Ok 7
  ∧ py_int (CStr "१२") = Ok 12
  ∧ py_int (CStr "-٣") = Ok (-3)
  ∧ py_int (CStr "　7　") = Ok 7
  ∧ py_int (CStr "７_７") = Ok 77
  ∧ py_int (CStr "①") = Raise ValueError
  ∧ py_int (CStr "－7") = Raise ValueError
  ∧ py_int (CStr (String (ascii_of_nat 28) "7")) = Raise ValueError
  ∧ py_int (CStr (String (ascii_of_nat 11) "7")) = Ok 7.
Proof. vm_compute. repeat split. Qed.

Example py_int_digit_limit :
  (∃ n, py_int (CStr (String.concat "" (replicate 4300 "1"))) = Ok n)
  ∧ py_int (CStr (String.concat "" (replicate 4301 "1"))) = Raise ValueError
  ∧ py_int (CStr (String.concat "" (replicate 4301 "0"))) = Raise ValueError.
Proof. split; [eexists|split]; vm_compute; reflexivity. Qed.

(** An integer column becomes a float column beside a float: the integer is
    rounded to the nearest float, and the product is a float product. *)
Example multiply_columns :
  multiply true (NInt 3) (NInt (-4)) = NInt (-12)
  ∧ multiply true (NInt (2 ^ 62)) (NInt 2) = NInt (- 2 ^ 63)
  ∧ multiply false (NInt 3) (NFloat 2.5%float) = NFloat 7.5%float
  ∧ multiply false (NInt 3) (NFloat PrimFloat.nan) = NFloat PrimFloat.nan
  ∧ int_of_float (float_of_int (2 ^ 53 + 1)) = Ok (2 ^ 53)
  ∧ int_of_float (float_of_int (2 ^ 53 + 3)) = Ok (2 ^ 53 + 4).
Proof. vm_compute. repeat split. Qed.

(** Where quantity and price are both integer columns the amount is an
    [int64]: a product that leaves the range wraps around, here to a
    negative amount, and R004 reports it. *)
Example int64_amount_wraps :
  ∃ fs out, main 0 int64_overflow = (fs, Ok out)
    ∧ amount <$> transactions out = [NInt (- 2 ^ 63); NInt 12]
    ∧ (λ e, (rule_id e, e_txn_id e)) <$> exceptions out = [("R004", "B1-0")].
Proof.
  eexists _, _. split; [vm_compute; reflexivity|]. vm_compute. repeat split.
Qed.

(** The scenario of the specification runs as the specification says. *)
Example scenario_run :
  ∃ fs out, main 0 scenario = (fs, Ok out)
    ∧ txn_id <$> transactions out = ["A1-0"; "A1-1"]
    ∧ customer_id <$> transactions out = [Some "7"; None]
    ∧ amount <$> transactions out = [NFloat 6%float; NFloat (-5)%float]
    ∧ master out = [make_master "7"]
    ∧ match_status <$> reconciled out = [Some MATCHED; Some UNMATCHED]
    ∧ (λ e, (rule_id e, e_txn_id e)) <$> exceptions out
      = [("R004", "A1-1"); ("R005", "A1-1")]
    ∧ dup_master out = [] ∧ dup_txn out = [].
Proof.
  eexists _, _. split; [vm_compute; reflexivity|]. vm_compute. repeat split.
Qed.

(** The merge repeats a transaction that meets two rows of the right table. *)
Example merge_fans_out :
  r_txn <$> reconcile [txn_of_7] master_with_duplicate = [txn_of_7; txn_of_7].
Proof. reflexivity. Qed.

(** In the merge a null key meets a null key. *)
Example merge_null_meets_null :
  match_status
    <$> reconcile [txn_of_nobody]
          [ {| m_customer_id := None; customer_name := "cust_";
               account_status := "ACTIVE" |} ]
  = [Some MATCHED].
Proof. reflexivity. Qed.

(** Against a master table from elsewhere, R003 fires. *)
Example r003_fires_on_foreign_master :
  select_unknown_customers [txn_of_7; txn_of_nobody] [make_master "8"] = [txn_of_7].
Proof. reflexivity. Qed.

(** A missing amount is not a negative amount. *)
Example missing_amount_not_negative :
  select_negative_txns [txn_of_7; txn_of_nobody] = [].
Proof. reflexivity. Qed.

(** * Properties *)

(** ** Lists *)

Section filter_facts.
Context {A : Type} (P : A → Prop) `{∀ x, Decision (P x)}.

Lemma filter_empty_iff (l : list A) :
  filter P l = [] ↔ ∀ x, x ∈ l → ¬ P x.
Proof.
  split.
  - intros Hf x Hx HP. by eapply filter_nil_not_elem_of.
  - intros Hall. destruct (filter P l) as [|x k] eqn:Hf; [done|].
    assert (x ∈ filter P l) as [HP Hx]%list_elem_of_filter
      by (rewrite Hf; left).
    by destruct (Hall x Hx).
Qed.

(** A filter keeps the order of the rows it keeps. *)
Lemma filter_lookup_mono (l : list A) i j x y :
  (i < j)%nat → filter P l !! i = Some x → filter P l !! j = Some y →
  ∃ p q, (p < q)%nat ∧ l !! p = Some x ∧ l !! q = Some y.
Proof.
  revert i j. induction l as [|a l IH]; intros i j Hij; [done|].
  rewrite filter_cons. destruct (decide (P a)) as [Ha|Ha].
  - destruct i as [|i], j as [|j]; try lia; simpl.
    + intros [= ->] Hy.
      apply list_elem_of_lookup_2, list_elem_of_filter in Hy as [_ Hy].
      apply list_elem_of_lookup_1 in Hy as [q Hq].
      exists 0%nat, (S q). split_and!; [lia|done|done].
    + intros Hx Hy. destruct (IH i j) as (p & q & ? & ? & ?); [lia|done|done|].
      exists (S p), (S q). split_and!; [lia|done|done].
  - intros Hx Hy. destruct (IH i j) as (p & q & ? & ? & ?); [lia|done|done|].
    exists (S p), (S q). split_and!; [lia|done|done].
Qed.
End filter_facts.

Section filter_fmap.
Context {A B : Type} (f : A → B) (P : B → Prop) `{∀ y, Decision (P y)}.

Lemma filter_fmap_all (l : list A) :
  (∀ x, P (f x)) → filter P (f <$> l) = f <$> l.
Proof.
  intros HP. induction l as [|x l IH]; [done|].
  rewrite fmap_cons, filter_cons_True by done. by rewrite IH.
Qed.

Lemma filter_fmap_none (l : list A) :
  (∀ x, ¬ P (f x)) → filter P (f <$> l) = [].
Proof.
  intros HP. induction l as [|x l IH]; [done|].
  rewrite fmap_cons, filter_cons_False by done. by rewrite IH.
Qed.

Lemma filter_fmap_comm (l : list A) :
  filter P (f <$> l) = f <$> filter (P ∘ f) l.
Proof.
  induction l as [|x l IH]; [done|].
  rewrite fmap_cons, !filter_cons. simpl.
  destruct (decide (P (f x))); by rewrite IH.
Qed.
End filter_fmap.

(** Distinct keys single out a row. *)
Lemma NoDup_fmap_elem_inj {A B} (f : A → B) (l : list A) x y :
  NoDup (f <$> l) → x ∈ l → y ∈ l → f x = f y → x = y.
Proof.
  intros Hnd [i Hi]%list_elem_of_lookup_1 [j Hj]%list_elem_of_lookup_1 Heq.
  assert (i = j) as ->; [|congruence].
  eapply NoDup_alt; [exact Hnd| |].
  - by apply list_lookup_fmap_Some_2.
  - rewrite Heq. by apply list_lookup_fmap_Some_2.
Qed.

(** ** [Series.apply] *)

Section series_apply.
Context {A B : Type} (f : A → result B).

Lemma series_apply_length l ys :
  series_apply f l = Ok ys → length ys = length l.
Proof.
  revert ys. induction l as [|x l IH]; intros ys; simpl.
  - by intros [= <-].
  - destruct (f x) as [y|]; simpl; [|done].
    destruct (series_apply f l) as [ys'|]; simpl; [|done].
    intros [= <-]. simpl. f_equal. by apply IH.
Qed.

Lemma series_apply_lookup l ys i x :
  series_apply f l = Ok ys → l !! i = Some x → ∃ y, ys !! i = Some y ∧ f x = Ok y.
Proof.
  revert ys i. induction l as [|x' l IH]; intros ys i; simpl; [done|].
  destruct (f x') as [y'|] eqn:Hf; simpl; [|done].
  destruct (series_apply f l) as [ys'|]; simpl; [|done].
  intros [= <-]. destruct i as [|i]; simpl.
  - intros [= ->]. eauto.
  - intros Hl. by apply IH.
Qed.

(** The first value on which [f] raises stops [apply]. *)
Lemma series_apply_Raise l x :
  x ∈ l → (∃ e, f x = Raise e) → ∃ e, series_apply f l = Raise e.
Proof.
  intros Hx [e He]. induction Hx as [x l|x x' l Hx IH]; simpl.
  - rewrite He. simpl. eauto.
  - destruct (f x') as [y'|e']; simpl; [|eauto].
    destruct (IH He) as [e'' ->]. simpl. eauto.
Qed.
(** [apply] returns when [f] returns on every value. *)
Lemma series_apply_Ok l :
  (∀ x, x ∈ l → ∃ y, f x = Ok y) → ∃ ys, series_apply f l = Ok ys.
Proof.
  induction l as [|x l IH]; intros Hall; simpl; [by eexists|].
  destruct (Hall x) as [y ->]; [left|]. simpl.
  destruct IH as [ys ->]; [|by eexists].
  intros x' Hx'. apply Hall. by right.
Qed.
End series_apply.

(** ** Decimal renderings carry no hyphen *)

Lemma string_app_nil s : "" +:+ s = s.
Proof. reflexivity. Qed.

Lemma string_app_cons c a s : String c a +:+ s = String c (a +:+ s).
Proof. reflexivity. Qed.

Lemma has_dash_app a b : has_dash (a +:+ b) = has_dash a || has_dash b.
Proof.
  induction a as [|c a IH]; [done|].
  rewrite string_app_cons. simpl. by rewrite IH, orb_assoc.
Qed.

Lemma pretty_N_char_no_dash d : Ascii.eqb (pretty_N_char d) "-" = false.
Proof. unfold pretty_N_char. by repeat case_match. Qed.

Lemma pretty_N_go_no_dash x s : has_dash s = false → has_dash (pretty_N_go x s) = false.
Proof.
  revert s. induction (N.lt_wf_0 x) as [x _ IH]; intros s Hs.
  destruct (decide (x = 0)%N) as [->|Hx]; [by rewrite pretty_N_go_0|].
  rewrite pretty_N_go_step by lia.
  apply IH; [apply N.div_lt; lia|].
  simpl. by rewrite pretty_N_char_no_dash.
Qed.

Lemma pretty_nat_no_dash (n : nat) : has_dash (pretty n) = false.
Proof.
  unfold pretty, pretty_nat, pretty, pretty_N.
  case_decide; [done|]. by apply pretty_N_go_no_dash.
Qed.

(** A string is cut in one way only at its last hyphen. *)
Lemma last_dash_inj a b d1 d2 :
  has_dash d1 = false → has_dash d2 = false →
  a +:+ "-" +:+ d1 = b +:+ "-" +:+ d2 → a = b ∧ d1 = d2.
Proof.
  intros H1 H2. revert b.
  induction a as [|c a IH]; intros [|c' b] Heq;
    rewrite ?string_app_cons, ?string_app_nil in Heq.
  - by simplify_eq.
  - simplify_eq. rewrite has_dash_app in H1. simpl in H1.
    by rewrite orb_true_r in H1.
  - simplify_eq. rewrite has_dash_app in H2. simpl in H2.
    by rewrite orb_true_r in H2.
  - simplify_eq. destruct (IH b) as [-> ->]; done.
Qed.

Lemma make_txn_id_inj inv1 inv2 (i j : nat) :
  make_txn_id inv1 i = make_txn_id inv2 j → i = j.
Proof.
  unfold make_txn_id. intros Heq.
  apply last_dash_inj in Heq as [_ Heq]; auto using pretty_nat_no_dash.
  by apply (inj pretty) in Heq.
Qed.

(** ** [int] gives no integer that [str] refuses *)

Lemma digits2_pos_bound m : Z.pos m < 2 ^ Z.pos (digits2_pos m).
Proof.
  induction m as [m IH|m IH|]; simpl; [| |lia];
    rewrite Pos2Z.inj_succ, Z.pow_succ_r by lia; lia.
Qed.

(** A finite [float64] is below 2^1024. *)
Lemma int_of_float_bound x n : int_of_float x = Ok n → Z.abs n < 2 ^ 1024.
Proof.
  unfold int_of_float. pose proof (Prim2SF_valid x) as Hv.
  destruct (Prim2SF x) as [s|s| |s m e]; try discriminate.
  - intros [= <-]. reflexivity.
  - intros [= <-]. simpl in Hv. unfold bounded, canonical_mantissa, fexp in Hv.
    apply andb_prop in Hv as [Hc He].
    apply Z.eqb_eq in Hc. apply Z.leb_le in He.
    pose proof (digits2_pos_bound m) as Hm.
    assert (Hd : Z.pos (digits2_pos m) <= 53) by (unfold prec in Hc; lia).
    assert (Hm' : Z.pos m < 2 ^ 53).
    { eapply Z.lt_le_trans; [exact Hm|]. apply Z.pow_le_mono_r; lia. }
    assert (Hmag : 0 <= (if 0 <=? e then Z.pos m * 2 ^ e
                         else Z.pos m / 2 ^ (- e)) < 2 ^ 1024).
    { destruct (Z.leb_spec 0 e).
      - unfold emax, prec in He. split; [apply Z.mul_nonneg_nonneg; lia|].
        apply Z.lt_le_trans with (2 ^ 53 * 2 ^ e).
        + apply Z.mul_lt_mono_pos_r; lia.
        + rewrite <- Z.pow_add_r by lia. apply Z.pow_le_mono_r; lia.
      - assert (0 < 2 ^ (- e)) by (apply Z.pow_pos_nonneg; lia).
        split; [apply Z.div_pos; lia|].
        apply Z.le_lt_trans with (Z.pos m); [apply Z.div_le_upper_bound; nia|].
        eapply Z.lt_trans; [exact Hm'|]. apply Z.pow_lt_mono_r; lia. }
    destruct s; lia.
Qed.

Lemma digit_of_bound c d : digit_of c = Some d → 0 <= d <= 9.
Proof.
  unfold digit_of. case_match eqn:H; [|discriminate]. intros [= <-].
  apply andb_prop in H as [H1 H2].
  apply Nat.leb_le in H1, H2. lia.
Qed.

Lemma digits_value_bound s : ∀ st acc v,
  0 <= acc → digits_value st acc s = Some v →
  0 <= v < (acc + 1) * 10 ^ Z.of_N (digit_count s).
Proof.
  induction s as [|c s IH]; intros st acc v Hacc; simpl.
  - destruct st; intros [= <-]. lia.
  - destruct (digit_of c) as [d|] eqn:Hd.
    + apply digit_of_bound in Hd. intros Hv.
      apply IH in Hv; [|lia].
      replace (Z.of_N (1 + digit_count s))
        with (Z.succ (Z.of_N (digit_count s))) by lia.
      rewrite Z.pow_succ_r by lia.
      assert (0 < 10 ^ Z.of_N (digit_count s)) by (apply Z.pow_pos_nonneg; lia).
      nia.
    + destruct (Ascii.eqb c "_"); [|discriminate].
      destruct st; try discriminate. intros Hv. apply IH in Hv; [|lia].
      rewrite N.add_0_l. exact Hv.
Qed.

Lemma int_of_str_bound s n :
  int_of_str s = Ok n → Z.abs n < 10 ^ Z.of_N max_str_digits.
Proof.
  unfold int_of_str.
  destruct (transform_decimal_and_space s) as [text|]; [|discriminate].
  set (body := strip text). clearbody body.
  set (p := match body with
            | String "-" r => (true, r)
            | String "+" r => (false, r)
            | _ => (false, body)
            end).
  clearbody p. destruct p as [neg ds].
  destruct (digits_value LitStart 0 ds) as [v|] eqn:Hv; [|discriminate].
  destruct (N.ltb_spec max_str_digits (digit_count ds)) as [|Hle];
    [discriminate|].
  intros [= <-]. apply digits_value_bound in Hv; [|lia].
  assert (10 ^ Z.of_N (digit_count ds) <= 10 ^ Z.of_N max_str_digits)
    by (apply Z.pow_le_mono_r; lia).
  destruct neg; lia.
Qed.

(** Whatever [int] gives of a cell (an [int64], a float or a string) has at
    most [max_str_digits] digits, so [str] renders it. *)
Lemma py_int_str_limit x n :
  (∀ k, x = CInt k → wrap64 k = k) →
  py_int x = Ok n → Z.abs n < 10 ^ Z.of_N max_str_digits.
Proof.
  intros Hx. destruct x as [|k|f|s|d]; simpl; try discriminate.
  - intros [= <-]. specialize (Hx k eq_refl). unfold wrap64 in Hx.
    assert (0 <= (k + 2 ^ 63) mod 2 ^ 64 < 2 ^ 64)
      by (apply Z.mod_pos_bound; lia).
    apply Z.lt_le_trans with (2 ^ 64); [lia|].
    change (Z.of_N max_str_digits) with 4300.
    apply Z.le_trans with (10 ^ 64); [|apply Z.pow_le_mono_r; lia].
    apply Z.pow_le_mono_l; lia.
  - intros H%int_of_float_bound.
    eapply Z.lt_le_trans; [exact H|]. change (Z.of_N max_str_digits) with 4300.
    apply Z.le_trans with (10 ^ 1024); [|apply Z.pow_le_mono_r; lia].
    apply Z.pow_le_mono_l; lia.
  - apply int_of_str_bound.
Qed.

(** ** The Normalizer *)

Lemma normalize_lookup df txns i t :
  normalize df = Ok txns → txns !! i = Some t →
  ∃ row, df !! i = Some row
    ∧ txn_id t = make_txn_id (invoice row) i
    ∧ normalize_customer_id (customer row) = Ok (customer_id t)
    ∧ amount t = multiply (int64_amount df) (quantity row) (price row).
Proof.
  unfold normalize.
  destruct (series_apply _ _) as [cids|] eqn:Hap; simpl; [|done].
  intros [= <-]. rewrite list_lookup_imap.
  destruct (zip df cids !! i) as [[row cid]|] eqn:Hz; simpl; [|done].
  intros [= <-]. apply lookup_zip_with_Some in Hz as (r & c & [= <- <-] & Hr & Hc).
  exists row. split_and!; try done. simpl.
  destruct (series_apply_lookup _ _ _ i (customer row) Hap) as (y & Hy & Hf).
  { by rewrite list_lookup_fmap, Hr. }
  congruence.
Qed.

Lemma normalize_length df txns : normalize df = Ok txns → length txns = length df.
Proof.
  unfold normalize.
  destruct (series_apply _ _) as [cids|] eqn:Hap; simpl; [|done].
  intros [= <-]. apply series_apply_length in Hap.
  rewrite length_fmap in Hap.
  rewrite length_imap, length_zip. lia.
Qed.

Lemma normalize_txn_id_NoDup df txns :
  normalize df = Ok txns → NoDup (txn_id <$> txns).
Proof.
  intros Hn. apply NoDup_alt. intros i j s Hi Hj.
  apply list_lookup_fmap_Some in Hi as (t1 & -> & Ht1).
  apply list_lookup_fmap_Some in Hj as (t2 & Heq & Ht2).
  destruct (normalize_lookup _ _ _ _ Hn Ht1) as (r1 & _ & Hid1 & _).
  destruct (normalize_lookup _ _ _ _ Hn Ht2) as (r2 & _ & Hid2 & _).
  rewrite Hid1, Hid2 in Heq. by apply make_txn_id_inj in Heq.
Qed.

(** ** The Master Deriver *)

Lemma drop_duplicates_from_elem seen l x :
  x ∈ drop_duplicates_from seen l ↔ x ∈ l ∧ x ∉ seen.
Proof.
  revert seen. induction l as [|y l IH]; intros seen; simpl.
  - rewrite elem_of_nil. tauto.
  - destruct (decide (x = y)) as [->|Hne].
    + case_decide as Hy.
      * rewrite IH. tauto.
      * rewrite !elem_of_cons. tauto.
    + case_decide as Hy.
      * rewrite IH, elem_of_cons. tauto.
      * rewrite !elem_of_cons, IH, elem_of_union, elem_of_singleton. tauto.
Qed.

Lemma drop_duplicates_from_NoDup seen l : NoDup (drop_duplicates_from seen l).
Proof.
  revert seen. induction l as [|y l IH]; intros seen; simpl.
  - constructor.
  - case_decide; [done|]. constructor; [|done].
    rewrite drop_duplicates_from_elem, elem_of_union, elem_of_singleton. tauto.
Qed.

Lemma drop_duplicates_elem l x : x ∈ drop_duplicates l ↔ x ∈ l.
Proof.
  unfold drop_duplicates. rewrite drop_duplicates_from_elem.
  pose proof (not_elem_of_empty (C:=gset string) x). tauto.
Qed.

Lemma dropna_elem l x : x ∈ dropna l ↔ Some x ∈ l.
Proof.
  unfold dropna. rewrite list_elem_of_omap. split.
  - by intros ([y|] & Hy & [= <-]).
  - intros H. by exists (Some x).
Qed.

Lemma derive_master_keys txns :
  m_customer_id <$> derive_master txns
  = Some <$> drop_duplicates (dropna (customer_id <$> txns)).
Proof. unfold derive_master. by rewrite <-list_fmap_compose. Qed.

(** The derived master set holds every key once. *)
Lemma derive_master_NoDup txns : NoDup (m_customer_id <$> derive_master txns).
Proof.
  rewrite derive_master_keys.
  apply (NoDup_fmap_2 _), drop_duplicates_from_NoDup.
Qed.

(** The derived master set holds no null key. *)
Lemma derive_master_notnull txns : None ∉ m_customer_id <$> derive_master txns.
Proof.
  rewrite derive_master_keys, list_elem_of_fmap. by intros (? & ? & ?).
Qed.

(** The keys of the derived master set are the customer ids seen. *)
Lemma derive_master_elem txns c :
  Some c ∈ m_customer_id <$> derive_master txns ↔ Some c ∈ customer_id <$> txns.
Proof.
  rewrite derive_master_keys, (list_elem_of_fmap_inj Some).
  by rewrite drop_duplicates_elem, dropna_elem.
Qed.

(** ** The Reconciler *)

Lemma partners_unique t right :
  NoDup (m_customer_id <$> right) → (length (partners t right) ≤ 1)%nat.
Proof.
  unfold partners. induction right as [|m right IH]; [simpl; lia|].
  rewrite fmap_cons, NoDup_cons. intros [Hm Hnd].
  rewrite filter_cons. case_decide as Hk; [|by apply IH].
  assert (filter (λ m', m_customer_id m' = customer_id t) right = []) as ->.
  { apply filter_empty_iff. intros m' Hm' Hk'.
    apply Hm. rewrite Hk, <-Hk'. by apply list_elem_of_fmap_2. }
  simpl. lia.
Qed.

Lemma partners_nil t right :
  partners t right = [] ↔ customer_id t ∉ m_customer_id <$> right.
Proof.
  unfold partners. rewrite filter_empty_iff, list_elem_of_fmap.
  split.
  - intros H (m & Hk & Hm). by apply (H m).
  - intros H m Hm Hk. apply H. eauto.
Qed.

Lemma reconcile_rows left right :
  NoDup (m_customer_id <$> right) →
  reconcile left right = reconciled_row right <$> left.
Proof.
  intros Hnd. unfold reconcile, merge_left.
  induction left as [|t left IH]; [done|].
  rewrite bind_cons, fmap_app, IH, fmap_cons. clear IH.
  rewrite <-(app_nil_l (reconciled_row right <$> left)) at 2.
  rewrite app_comm_cons. f_equal.
  pose proof (partners_unique t right Hnd) as Hlen.
  unfold reconciled_row. fold (partners t right).
  destruct (partners t right) as [|m [|m' ms]]; simpl in *; [done|done|lia].
Qed.

Lemma reconciled_row_status right t :
  match_status (reconciled_row right t) = Some MATCHED
  ↔ customer_id t ∈ m_customer_id <$> right.
Proof.
  unfold reconciled_row.
  destruct (partners t right) as [|m ms] eqn:Hp; simpl.
  - apply partners_nil in Hp. split; [done|]. intros H. by destruct Hp.
  - split; [intros _|done].
    destruct (decide (customer_id t ∈ m_customer_id <$> right)) as [|Hn]; [done|].
    apply partners_nil in Hn. congruence.
Qed.

Lemma reconciled_row_status_cases right t :
  match_status (reconciled_row right t) = Some MATCHED
  ∨ match_status (reconciled_row right t) = Some UNMATCHED.
Proof. unfold reconciled_row. destruct (partners t right); simpl; auto. Qed.

Lemma reconcile_derived_status txns txns' r :
  r ∈ reconcile txns (derive_master txns') →
  (match_status r = Some MATCHED
     ↔ ∃ c, customer_id (r_txn r) = Some c
            ∧ Some c ∈ m_customer_id <$> derive_master txns')
  ∧ (match_status r = Some MATCHED ∨ match_status r = Some UNMATCHED).
Proof.
  rewrite reconcile_rows by apply derive_master_NoDup.
  intros (t & -> & _)%list_elem_of_fmap. split.
  - rewrite reconciled_row_status.
    replace (r_txn (reconciled_row (derive_master txns') t)) with t
      by (unfold reconciled_row; by destruct (partners _ _)).
    split.
    + destruct (customer_id t) as [c|]; [eauto|].
      intros H. by apply derive_master_notnull in H.
    + by intros (c & -> & H).
  - apply reconciled_row_status_cases.
Qed.

(** The rows the merge makes of one transaction. *)
Lemma reconcile_cons t left right :
  reconcile (t :: left) right
  = (match partners t right with
     | [] => [ {| r_txn := t; r_customer_name := None; r_account_status := None;
                  match_status := Some UNMATCHED |} ]
     | ms => (λ m, {| r_txn := t; r_customer_name := Some (customer_name m);
                      r_account_status := Some (account_status m);
                      match_status := Some MATCHED |}) <$> ms
     end ++ reconcile left right)%list.
Proof.
  unfold reconcile, merge_left. rewrite bind_cons, fmap_app. f_equal.
  fold (partners t right). destruct (partners t right) as [|m ms]; [done|].
  by rewrite <-list_fmap_compose.
Qed.

(** A row of the merge, against any table. *)
Lemma reconcile_elem left right r :
  r ∈ reconcile left right →
  r_txn r ∈ left
  ∧ ((match_status r = Some MATCHED
      ∧ ∃ m, m ∈ right ∧ m_customer_id m = customer_id (r_txn r)
             ∧ r_customer_name r = Some (customer_name m)
             ∧ r_account_status r = Some (account_status m))
     ∨ (match_status r = Some UNMATCHED
        ∧ (customer_id (r_txn r) ∉ m_customer_id <$> right)
        ∧ r_customer_name r = None ∧ r_account_status r = None)).
Proof.
  induction left as [|t left IH]; intros Hr; [by apply elem_of_nil in Hr|].
  rewrite reconcile_cons in Hr. apply elem_of_app in Hr as [Hr|Hr].
  - split; [|].
    { destruct (partners t right);
        [apply list_elem_of_singleton in Hr as ->
        |apply list_elem_of_fmap in Hr as (? & -> & _)]; left. }
    destruct (partners t right) as [|m ms] eqn:Hp.
    + apply list_elem_of_singleton in Hr as ->. right. simpl.
      split_and!; [done| |done|done]. by apply partners_nil.
    + apply list_elem_of_fmap in Hr as (m' & -> & Hm'). left. simpl.
      split; [done|]. exists m'. rewrite <-Hp in Hm'.
      apply list_elem_of_filter in Hm' as [? ?]. done.
  - destruct (IH Hr) as [? ?]. split; [by right|done].
Qed.

(** The match status against a master table without a null key. *)
Lemma reconcile_status txns master r :
  None ∉ m_customer_id <$> master → r ∈ reconcile txns master →
  (match_status r = Some MATCHED
     ↔ ∃ c, customer_id (r_txn r) = Some c ∧ Some c ∈ m_customer_id <$> master)
  ∧ (match_status r ≠ Some MATCHED → match_status r = Some UNMATCHED)
  ∧ (customer_id (r_txn r) = None → match_status r = Some UNMATCHED).
Proof.
  intros Hnn Hr.
  destruct (reconcile_elem txns master r Hr)
    as [_ [(Hst & m & Hm & Hk & _)|(Hst & Hk & _)]].
  - assert (customer_id (r_txn r) ∈ m_customer_id <$> master) as Hin
      by (rewrite <-Hk; by apply list_elem_of_fmap_2).
    split_and!.
    + split; [intros _|done].
      destruct (customer_id (r_txn r)) as [c|]; [eauto|done].
    + by rewrite Hst.
    + intros Hnone. by rewrite Hnone in Hin.
  - split_and!; [|done|done]. rewrite Hst. split; [done|].
    intros (c & Hc & Hin). by rewrite Hc in Hk.
Qed.

(** Against the derived master set the merge neither drops nor repeats. *)
Lemma reconcile_covers txns txns' :
  r_txn <$> reconcile txns (derive_master txns') = txns.
Proof.
  rewrite reconcile_rows by apply derive_master_NoDup.
  rewrite <-list_fmap_compose. rewrite <-(list_fmap_id txns) at 2.
  apply list_fmap_ext. intros _ t _. simpl.
  unfold reconciled_row. by destruct (partners _ _).
Qed.

(** No customer of the transactions is unknown to the master set derived
    from them. *)
Lemma unknown_customers_none txns :
  select_unknown_customers txns (derive_master txns) = [].
Proof.
  apply filter_empty_iff. intros t Ht.
  destruct (customer_id t) as [c|] eqn:Hc; [|simpl; tauto].
  rewrite andb_True, negb_True. intros [_ Hnotin]. apply Hnotin.
  unfold isin. rewrite bool_decide_spec, derive_master_elem, <-Hc.
  by apply list_elem_of_fmap_2.
Qed.

(** ** The run as a whole *)

Create HintDb recon.
#[local] Hint Resolve normalize_txn_id_NoDup derive_master_NoDup : recon.

(** An element of a mapped list, read at a position, is the image of a row. *)
Ltac made_from H := apply list_lookup_fmap_Some in H as (? & -> & _).

Lemma main_Ok now df fs out :
  main now df = (fs, Ok out) →
  normalize df = Ok (transactions out)
  ∧ master out = derive_master (transactions out)
  ∧ dq_report out = build_dq_report now (master out) (transactions out)
  ∧ reconciled out = reconcile (transactions out) (master out)
  ∧ exceptions out =
      ((r003_exception <$> select_unknown_customers (transactions out) (master out))
       ++ (r004_exception <$> select_negative_txns (transactions out))
       ++ (r005_exception <$> select_unmatched (reconciled out)))%list
  ∧ fs = files_of out.
Proof.
  unfold main. destruct (normalize df) as [txns|e]; [|done].
  intros [= <- <-]. simpl. rewrite <-app_assoc. done.
Qed.

Lemma main_Raise now df e :
  normalize df = Raise e → main now df = ([], Raise e).
Proof. unfold main. by intros ->. Qed.

(** The run ends well when [int] accepts every customer identifier that is
    not null; it then writes its six files. *)
Lemma main_ends_well now df :
  (∀ row, row ∈ df → notnull (customer row) = true →
     ∃ n, py_int (customer row) = Ok n) →
  ∃ out, main now df = (files_of out, Ok out).
Proof.
  intros Hall.
  destruct (series_apply_Ok normalize_customer_id (customer <$> df)) as [cids Hap].
  { intros x (row & -> & Hrow)%list_elem_of_fmap. unfold normalize_customer_id.
    destruct (notnull (customer row)) eqn:Hnn; [|by eexists].
    destruct (Hall row Hrow Hnn) as [n ->]. by eexists. }
  destruct (main now df) as [fs [out|e]] eqn:Hmain.
  - exists out. by apply main_Ok in Hmain as (_ & _ & _ & _ & _ & ->).
  - unfold main, normalize in Hmain. rewrite Hap in Hmain. done.
Qed.

(** A run that ends well reconciles every transaction into one row. *)
Lemma main_reconciled now df fs out :
  main now df = (fs, Ok out) →
  reconciled out = reconciled_row (master out) <$> transactions out.
Proof.
  intros (_ & Hm & _ & Hr & _)%main_Ok. rewrite Hr.
  apply reconcile_rows. rewrite Hm. apply derive_master_NoDup.
Qed.

Lemma reconciled_row_txn right t : r_txn (reconciled_row right t) = t.
Proof. unfold reconciled_row. by destruct (partners _ _). Qed.

(** The exceptions of a run, rule by rule. *)
Lemma exceptions_by_rule now df fs out :
  main now df = (fs, Ok out) →
  filter (λ e, rule_id e = "R003") (exceptions out)
    = r003_exception <$> select_unknown_customers (transactions out) (master out)
  ∧ filter (λ e, rule_id e = "R004") (exceptions out)
    = r004_exception <$> select_negative_txns (transactions out)
  ∧ filter (λ e, rule_id e = "R005") (exceptions out)
    = r005_exception <$> select_unmatched (reconciled out).
Proof.
  intros (_ & _ & _ & _ & He & _)%main_Ok. rewrite He, !filter_app.
  split_and!.
  - rewrite filter_fmap_all, !filter_fmap_none by done. by rewrite !app_nil_r.
  - rewrite (filter_fmap_all r004_exception), !filter_fmap_none by done.
    by rewrite app_nil_r.
  - rewrite (filter_fmap_all r005_exception), !filter_fmap_none by done. done.
Qed.

(** The exceptions one rule makes from the transactions it selects stand in
    the order of the transactions. *)
Lemma segment_order (g : Transaction → Exception) (P : Transaction → Prop)
    `{∀ t, Decision (P t)} (l : list Transaction) i j e1 e2 :
  (∀ t, e_txn_id (g t) = txn_id t) →
  (i < j)%nat → (g <$> filter P l) !! i = Some e1 → (g <$> filter P l) !! j = Some e2 →
  ∃ p q t1 t2, (p < q)%nat ∧ l !! p = Some t1 ∧ l !! q = Some t2
    ∧ e_txn_id e1 = txn_id t1 ∧ e_txn_id e2 = txn_id t2.
Proof.
  intros Hg Hij (t1 & -> & H1)%list_lookup_fmap_Some (t2 & -> & H2)%list_lookup_fmap_Some.
  destruct (filter_lookup_mono P l i j t1 t2) as (p & q & ? & ? & ?); [done..|].
  exists p, q, t1, t2. by rewrite !Hg.
Qed.

(** The data-quality report does carry the time of the run. *)
Lemma dq_report_timestamp now m t f :
  f ∈ build_dq_report now m t → timestamp f = now.
Proof. unfold build_dq_report. by intros (? & -> & _)%list_elem_of_fmap. Qed.

(** ** Duplicated rows *)

Lemma mask_rows_fmap {A} (h : A → bool) (rows : list A) :
  mask_rows rows (h <$> rows) = filter (λ r, h r = true) rows.
Proof.
  unfold mask_rows. induction rows as [|r rows IH]; [done|].
  rewrite fmap_cons. cbn [zip zip_with]. rewrite !filter_cons. simpl.
  destruct (decide (h r = true)); by rewrite ?fmap_cons, IH.
Qed.

(** The rows [duplicated(keep=False)] marks are those whose key occurs more
    than once. *)
Lemma duplicated_rows_filter {A K} `{EqDecision K} (key : A → K) (rows : list A) :
  duplicated_rows key rows
  = filter (λ r, (1 < length (filter (λ k', k' = key r) (key <$> rows)))%nat) rows.
Proof.
  unfold duplicated_rows, duplicated. rewrite <-list_fmap_compose, mask_rows_fmap.
  apply list_filter_iff. intros r. simpl. by rewrite bool_decide_eq_true.
Qed.

Section occurrences.
Context {K : Type} `{EqDecision K}.

Lemma occurrences_notin (k : K) (l : list K) :
  k ∉ l → filter (λ k', k' = k) l = [].
Proof. intros Hk. apply filter_empty_iff. intros k' Hk' ->. done. Qed.

Lemma occurrences_in (k : K) (l : list K) :
  k ∈ l → (1 ≤ length (filter (λ k', k' = k) l))%nat.
Proof.
  intros Hk. destruct (filter (λ k', k' = k) l) as [|x xs] eqn:Hf; [|simpl; lia].
  by destruct (filter_nil_not_elem_of _ _ k Hf eq_refl).
Qed.

(** Keys are pairwise distinct exactly when none occurs twice. *)
Lemma NoDup_occurrences (l : list K) :
  NoDup l ↔ ∀ k, k ∈ l → (length (filter (λ k', k' = k) l) ≤ 1)%nat.
Proof.
  induction l as [|a l IH].
  - split; [by intros _ k ?%elem_of_nil|constructor].
  - rewrite NoDup_cons, IH. split.
    + intros [Ha Hl] k Hk. rewrite filter_cons.
      destruct (decide (a = k)) as [->|Hne].
      * rewrite occurrences_notin by done. simpl. lia.
      * apply Hl. apply elem_of_cons in Hk as [->|]; done.
    + intros Hall. split.
      * intros Ha. pose proof (Hall a (list_elem_of_here _ _)) as Hle.
        rewrite filter_cons_True in Hle by done.
        pose proof (occurrences_in a l Ha). simpl in Hle. lia.
      * intros k Hk. pose proof (Hall k (list_elem_of_further _ _ _ Hk)) as Hle.
        rewrite filter_cons in Hle. destruct (decide (a = k)); simpl in Hle; lia.
Qed.
End occurrences.

Lemma main_dups now df fs out :
  main now df = (fs, Ok out) →
  dup_master out = duplicated_rows m_customer_id (master out)
  ∧ dup_txn out = duplicated_rows txn_id (transactions out).
Proof.
  unfold main. destruct (normalize df) as [txns|e]; [|done].
  by intros [= <- <-].
Qed.

(** * The claims *)

(** C1 (join correctness). Against any master table whose keys are not
    null, and so against the master set of a run, a reconciled row has
    [match_status = MATCHED] exactly when its transaction's [customer_id] is
    non-null and occurs among the [customer_id] values of the master set;
    every other row, and so every row with a null [customer_id], has
    [match_status = UNMATCHED]. *)
Theorem join_correctness :
  (∀ txns master r,
     None ∉ m_customer_id <$> master → r ∈ reconcile txns master →
     (match_status r = Some MATCHED
        ↔ ∃ c, customer_id (r_txn r) = Some c
               ∧ Some c ∈ m_customer_id <$> master)
     ∧ (match_status r ≠ Some MATCHED → match_status r = Some UNMATCHED)
     ∧ (customer_id (r_txn r) = None → match_status r = Some UNMATCHED))
  ∧ (∀ now df fs out r,
       main now df = (fs, Ok out) → r ∈ reconciled out →
       (match_status r = Some MATCHED
          ↔ ∃ c, customer_id (r_txn r) = Some c
                 ∧ Some c ∈ m_customer_id <$> master out)
       ∧ (match_status r ≠ Some MATCHED → match_status r = Some UNMATCHED)
       ∧ (customer_id (r_txn r) = None → match_status r = Some UNMATCHED)).
Proof.
  split; [apply reconcile_status|].
  intros now df fs out r (_ & Hm & _ & Hr & _)%main_Ok Hin.
  rewrite Hr in Hin. apply (reconcile_status (transactions out)); [|done].
  rewrite Hm. apply derive_master_notnull.
Qed.

(** A transaction whose customer is not in the master table, and one whose
    customer is. *)
Lemma join_correctness_witness :
  ∃ r1 r2,
    r1 ∈ reconcile [txn_of_7; txn_of_nobody] [make_master "8"]
    ∧ r2 ∈ reconcile [txn_of_7; txn_of_nobody] [make_master "7"]
    ∧ customer_id (r_txn r1) = Some "7" ∧ customer_id (r_txn r2) = Some "7"
    ∧ match_status r1 = Some UNMATCHED ∧ match_status r2 = Some MATCHED
    ∧ (match_status r1 = Some MATCHED
         ↔ ∃ c, customer_id (r_txn r1) = Some c
                ∧ Some c ∈ m_customer_id <$> [make_master "8"])
    ∧ (match_status r2 = Some MATCHED
         ↔ ∃ c, customer_id (r_txn r2) = Some c
                ∧ Some c ∈ m_customer_id <$> [make_master "7"]).
Proof.
  eexists _, _. split; [left|]. split; [left|].
  split; [reflexivity|]. split; [reflexivity|].
  split; [reflexivity|]. split; [reflexivity|].
  split.
  - eapply (proj1 join_correctness [txn_of_7; txn_of_nobody] [make_master "8"]);
      [|left].
    intros H. apply list_elem_of_singleton in H. discriminate H.
  - eapply (proj1 join_correctness [txn_of_7; txn_of_nobody] [make_master "7"]);
      [|left].
    intros H. apply list_elem_of_singleton in H. discriminate H.
Defined.

(** C2 (coverage). Whatever the transactions, the Reconciler returns them
    one row each and in the same order when the master set is a derived one,
    whose keys are pairwise distinct; so a run that ends well has one
    reconciled row per transaction and per input row, none dropped and none
    repeated. *)
Theorem coverage :
  (∀ txns txns',
     r_txn <$> reconcile txns (derive_master txns') = txns
     ∧ NoDup (m_customer_id <$> derive_master txns'))
  ∧ (∀ now df fs out,
       main now df = (fs, Ok out) →
       r_txn <$> reconciled out = transactions out
       ∧ length (reconciled out) = length df
       ∧ NoDup (m_customer_id <$> master out)).
Proof.
  split.
  - intros txns txns'. split; [apply reconcile_covers|apply derive_master_NoDup].
  - intros now df fs out (Hn & Hm & _ & Hr & _)%main_Ok.
    assert (r_txn <$> reconciled out = transactions out) as Hcov
      by (rewrite Hr, Hm; apply reconcile_covers).
    split_and!; [done| |rewrite Hm; apply derive_master_NoDup].
    rewrite <-(length_fmap r_txn), Hcov. by apply normalize_length.
Qed.

Lemma coverage_witness :
  ∃ fs out, main 0 scenario = (fs, Ok out)
    ∧ r_txn <$> reconciled out = transactions out
    ∧ length (reconciled out) = length scenario.
Proof.
  eexists _, _. split; [vm_compute; reflexivity|].
  pose proof (proj2 coverage 0 scenario _ _ eq_refl) as (H1 & H2 & _).
  exact (conj H1 H2).
Defined.

(** C3 (R004 completeness). In a run that ends well the [txn_id] values that
    carry an R004 exception are those of the transactions with [amount < 0],
    in input order; a transaction has an R004 exception exactly when its
    amount is negative, and a reconciled row with a negative amount has one
    whatever its match status. *)
Theorem r004_completeness now df fs out :
  main now df = (fs, Ok out) →
  e_txn_id <$> filter (λ e, rule_id e = "R004") (exceptions out)
    = txn_id <$> filter (λ t, lt_zero (amount t)) (transactions out)
  ∧ list_to_set (C:=gset string)
      (e_txn_id <$> filter (λ e, rule_id e = "R004") (exceptions out))
    = list_to_set
        (txn_id <$> filter (λ t, lt_zero (amount t)) (transactions out))
  ∧ (∀ t, t ∈ transactions out →
       (∃ e, e ∈ exceptions out ∧ rule_id e = "R004" ∧ e_txn_id e = txn_id t)
       ↔ lt_zero (amount t) = true)
  ∧ (∀ r, r ∈ reconciled out →
       lt_zero (amount (r_txn r)) = true →
       ∃ e, e ∈ exceptions out ∧ rule_id e = "R004"
            ∧ e_txn_id e = txn_id (r_txn r)).
Proof.
  intros Hmain.
  destruct (exceptions_by_rule _ _ _ _ Hmain) as (_ & H4 & _).
  pose proof (main_reconciled _ _ _ _ Hmain) as Hrows.
  apply main_Ok in Hmain as (Hn & _).
  assert (e_txn_id <$> filter (λ e, rule_id e = "R004") (exceptions out)
          = txn_id <$> select_negative_txns (transactions out)) as Hids.
  { rewrite H4, <-list_fmap_compose. done. }
  assert (∀ t, t ∈ transactions out →
            (∃ e, e ∈ exceptions out ∧ rule_id e = "R004" ∧ e_txn_id e = txn_id t)
            ↔ lt_zero (amount t) = true) as Hiff.
  { intros t Ht. split.
    - intros (e & He & Hrule & Hid).
      assert (e ∈ filter (λ e, rule_id e = "R004") (exceptions out)) as Hin
        by (by apply list_elem_of_filter).
      rewrite H4 in Hin. apply list_elem_of_fmap in Hin as (t' & -> & Ht').
      apply list_elem_of_filter in Ht' as [Hneg Ht'].
      assert (t' = t) as <-; [|by apply Is_true_true].
      eapply (NoDup_fmap_elem_inj txn_id); eauto with recon.
    - intros Hneg. exists (r004_exception t). split_and!; [|done|done].
      assert (r004_exception t ∈ filter (λ e, rule_id e = "R004") (exceptions out))
        as Hin; [|by apply list_elem_of_filter in Hin as [_ ?]].
      rewrite H4. apply list_elem_of_fmap_2, list_elem_of_filter.
      split; [by apply Is_true_true|done]. }
  split_and!; [done|by rewrite Hids|done|].
  intros r Hr Hneg. apply Hiff; [|done].
  rewrite Hrows in Hr. apply list_elem_of_fmap in Hr as (t & -> & Ht).
  by rewrite reconciled_row_txn.
Qed.

Lemma r004_completeness_witness :
  ∃ fs out, main 0 scenario = (fs, Ok out)
    ∧ e_txn_id <$> filter (λ e, rule_id e = "R004") (exceptions out) = ["A1-1"]
    ∧ txn_id <$> filter (λ t, lt_zero (amount t)) (transactions out)
      = ["A1-1"].
Proof.
  eexists _, _. split; [vm_compute; reflexivity|].
  split; [|vm_compute; reflexivity].
  etrans; [|vm_compute; reflexivity].
  eapply (r004_completeness 0 scenario). vm_compute; reflexivity.
Defined.

(** C4 (R005 completeness). In a run that ends well the [txn_id] values that
    carry an R005 exception are those of the reconciled rows with
    [match_status = UNMATCHED], in input order; a reconciled row has an R005
    exception exactly when it is unmatched, so no matched row has one. *)
Theorem r005_completeness now df fs out :
  main now df = (fs, Ok out) →
  e_txn_id <$> filter (λ e, rule_id e = "R005") (exceptions out)
    = (txn_id ∘ r_txn)
        <$> filter (λ r, match_status r = Some UNMATCHED) (reconciled out)
  ∧ list_to_set (C:=gset string)
      (e_txn_id <$> filter (λ e, rule_id e = "R005") (exceptions out))
    = list_to_set
        ((txn_id ∘ r_txn)
           <$> filter (λ r, match_status r = Some UNMATCHED) (reconciled out))
  ∧ (∀ r, r ∈ reconciled out →
       (∃ e, e ∈ exceptions out ∧ rule_id e = "R005"
             ∧ e_txn_id e = txn_id (r_txn r))
       ↔ match_status r = Some UNMATCHED).
Proof.
  intros Hmain.
  destruct (exceptions_by_rule _ _ _ _ Hmain) as (_ & _ & H5).
  pose proof (main_reconciled _ _ _ _ Hmain) as Hrows.
  apply main_Ok in Hmain as (Hn & _).
  assert (e_txn_id <$> filter (λ e, rule_id e = "R005") (exceptions out)
          = (txn_id ∘ r_txn) <$> select_unmatched (reconciled out)) as Hids.
  { rewrite H5, <-list_fmap_compose. done. }
  split_and!; [done|by rewrite Hids|].
  intros r Hr. split.
  - intros (e & He & Hrule & Hid).
    assert (e ∈ filter (λ e, rule_id e = "R005") (exceptions out)) as Hin
      by (by apply list_elem_of_filter).
    rewrite H5 in Hin. apply list_elem_of_fmap in Hin as (r' & -> & Hr').
    apply list_elem_of_filter in Hr' as [Hun Hr'].
    assert (r' = r) as <-; [|done].
    rewrite Hrows in Hr, Hr'.
    apply list_elem_of_fmap in Hr as (t & -> & Ht).
    apply list_elem_of_fmap in Hr' as (t' & -> & Ht').
    simpl in Hid. rewrite !reconciled_row_txn in Hid. f_equal.
    eapply (NoDup_fmap_elem_inj txn_id); eauto with recon.
  - intros Hun. exists (r005_exception r). split_and!; [|done|done].
    assert (r005_exception r ∈ filter (λ e, rule_id e = "R005") (exceptions out))
      as Hin; [|by apply list_elem_of_filter in Hin as [_ ?]].
    rewrite H5. apply list_elem_of_fmap_2, list_elem_of_filter. done.
Qed.

Lemma r005_completeness_witness :
  ∃ fs out, main 0 scenario = (fs, Ok out)
    ∧ e_txn_id <$> filter (λ e, rule_id e = "R005") (exceptions out) = ["A1-1"]
    ∧ (txn_id ∘ r_txn)
        <$> filter (λ r, match_status r = Some UNMATCHED) (reconciled out)
      = ["A1-1"].
Proof.
  eexists _, _. split; [vm_compute; reflexivity|].
  split; [|vm_compute; reflexivity].
  etrans; [|vm_compute; reflexivity].
  eapply (r005_completeness 0 scenario). vm_compute; reflexivity.
Defined.

(** C5 (duplicates and the data-quality report), as the code has it. In a
    run that ends well the Auditor identifies the rows of the master set
    whose [customer_id] occurs more than once and the transactions whose
    [txn_id] occurs more than once, as [dup_master] and [dup_txn], and
    raises nothing; both are empty in every run. They are part of no file:
    the run writes its six tables, and the data-quality report among them
    is the null counts of the columns of the two tables, eleven rows, and
    nothing else. *)
Theorem duplicates_identified_not_reported now df fs out :
  main now df = (fs, Ok out) →
  (∀ m, m ∈ dup_master out ↔
     m ∈ master out
     ∧ (2 ≤ length (filter (λ k, k = m_customer_id m)
                      (m_customer_id <$> master out)))%nat)
  ∧ (∀ t, t ∈ dup_txn out ↔
       t ∈ transactions out
       ∧ (2 ≤ length (filter (λ k, k = txn_id t)
                        (txn_id <$> transactions out)))%nat)
  ∧ dup_master out = [] ∧ dup_txn out = []
  ∧ fs = files_of out
  ∧ dq_report out
    = (λ r, {| column := r.1.1; null_count := r.1.2; table := r.2;
               timestamp := now |})
        <$> (check_nulls (master_frame (master out)) "master_records"
             ++ check_nulls (transactions_frame (transactions out))
                  "transactions")%list
  ∧ (λ f, (table f, column f)) <$> dq_report out
    = [ ("master_records", "customer_id"); ("master_records", "customer_name");
        ("master_records", "account_status");
        ("transactions", "txn_id"); ("transactions", "customer_id");
        ("transactions", "amount"); ("transactions", "txn_date");
        ("transactions", "invoice"); ("transactions", "stockcode");
        ("transactions", "description"); ("transactions", "country") ].
Proof.
  intros Hmain. destruct (main_dups _ _ _ _ Hmain) as [Hdm Hdt].
  apply main_Ok in Hmain as (Hn & Hm & Hdq & _ & _ & Hfs).
  rewrite Hdm, Hdt, !duplicated_rows_filter. split_and!.
  - intros m. rewrite list_elem_of_filter. split; intros [? ?]; split; done || lia.
  - intros t. rewrite list_elem_of_filter. split; intros [? ?]; split; done || lia.
  - apply filter_empty_iff. intros m Hin. rewrite Hm in *.
    pose proof (proj1 (NoDup_occurrences _) (derive_master_NoDup (transactions out))
                  (m_customer_id m) (list_elem_of_fmap_2 _ _ _ Hin)). lia.
  - apply filter_empty_iff. intros t Hin.
    pose proof (proj1 (NoDup_occurrences _) (normalize_txn_id_NoDup _ _ Hn)
                  (txn_id t) (list_elem_of_fmap_2 _ _ _ Hin)). lia.
  - done.
  - by rewrite Hdq.
  - by rewrite Hdq.
Qed.

Lemma duplicates_identified_not_reported_witness :
  ∃ fs out, main 0 two_returns = (fs, Ok out)
    ∧ dup_master out = [] ∧ dup_txn out = []
    ∧ fs = files_of out.
Proof.
  eexists _, _. split; [vm_compute; reflexivity|].
  destruct (duplicates_identified_not_reported 0 two_returns _ _ eq_refl)
    as (_ & _ & H1 & H2 & H3 & _).
  exact (conj H1 (conj H2 H3)).
Defined.

(** The report does not tell a table with duplicated keys from one without:
    the Auditor finds two duplicated rows in [master_with_duplicate] and in
    [transactions_with_duplicate] and none in the tables without, and
    reports the same of both; the report of the scenario's run has its
    eleven null counts and no other row, and the run writes six files. *)
Lemma duplicates_not_surfaced :
  length (duplicated_rows m_customer_id master_with_duplicate) = 2%nat
  ∧ length (duplicated_rows m_customer_id master_without_duplicate) = 0%nat
  ∧ length (duplicated_rows txn_id transactions_with_duplicate) = 2%nat
  ∧ length (duplicated_rows txn_id transactions_without_duplicate) = 0%nat
  ∧ build_dq_report 0 master_with_duplicate transactions_with_duplicate
    = build_dq_report 0 master_without_duplicate transactions_without_duplicate
  ∧ ∃ fs out, main 0 scenario = (fs, Ok out)
      ∧ (λ f, (table f, column f, null_count f)) <$> dq_report out
        = [ ("master_records", "customer_id", 0%nat);
            ("master_records", "customer_name", 0%nat);
            ("master_records", "account_status", 0%nat);
            ("transactions", "txn_id", 0%nat);
            ("transactions", "customer_id", 1%nat);
            ("transactions", "amount", 0%nat);
            ("transactions", "txn_date", 0%nat);
            ("transactions", "invoice", 0%nat);
            ("transactions", "stockcode", 0%nat);
            ("transactions", "description", 1%nat);
            ("transactions", "country", 0%nat) ]
      ∧ fst <$> fs
        = [ transactions_csv; master_records_csv; reconciliation_rules_csv;
            data_quality_report_csv; reconciliation_results_csv;
            exceptions_report_csv ].
Proof.
  do 5 (split; [reflexivity|]).
  eexists _, _. split; [vm_compute; reflexivity|]. split; reflexivity.
Qed.

(** C6 (R003 is silent here). The master set being derived from the very
    transactions that are reconciled, no transaction with a non-null
    [customer_id] is unknown to it, whatever the transactions: a run that
    ends well has no R003 exception. *)
Theorem r003_never_fires :
  (∀ txns, select_unknown_customers txns (derive_master txns) = [])
  ∧ (∀ now df fs out,
       main now df = (fs, Ok out) →
       select_unknown_customers (transactions out) (master out) = []
       ∧ filter (λ e, rule_id e = "R003") (exceptions out) = []).
Proof.
  split; [apply unknown_customers_none|].
  intros now df fs out Hmain.
  destruct (exceptions_by_rule _ _ _ _ Hmain) as (H3 & _).
  apply main_Ok in Hmain as (_ & Hm & _).
  assert (select_unknown_customers (transactions out) (master out) = []) as Hnone
    by (rewrite Hm; apply unknown_customers_none).
  split; [done|]. by rewrite H3, Hnone.
Qed.

Lemma r003_never_fires_witness :
  ∃ fs out, main 0 scenario = (fs, Ok out)
    ∧ filter (λ e, rule_id e = "R003") (exceptions out) = [].
Proof.
  eexists _, _. split; [vm_compute; reflexivity|].
  exact (proj2 (proj2 r003_never_fires 0 scenario _ _ eq_refl)).
Defined.

(** C7 (uniqueness of [txn_id]). The [txn_id] of the transaction made from
    the row at position [i] is the invoice identifier, a hyphen, and [i] in
    decimal; the transactions made from two distinct rows have distinct
    [txn_id] values. *)
Theorem txn_id_unique now df fs out :
  main now df = (fs, Ok out) →
  length (transactions out) = length df
  ∧ (∀ i t, transactions out !! i = Some t →
       ∃ row, df !! i = Some row
         ∧ txn_id t = astype_str (invoice row) +:+ "-" +:+ pretty i)
  ∧ (∀ i j t1 t2, i ≠ j →
       transactions out !! i = Some t1 → transactions out !! j = Some t2 →
       txn_id t1 ≠ txn_id t2).
Proof.
  intros (Hn & _)%main_Ok. split_and!.
  - by apply normalize_length.
  - intros i t Ht.
    destruct (normalize_lookup _ _ _ _ Hn Ht) as (row & Hrow & Hid & _). eauto.
  - intros i j t1 t2 Hij Ht1 Ht2 Heq. apply Hij.
    pose proof (normalize_txn_id_NoDup _ _ Hn) as Hnd.
    eapply NoDup_alt; [exact Hnd| |].
    + by apply list_lookup_fmap_Some_2.
    + rewrite Heq. by apply list_lookup_fmap_Some_2.
Qed.

Lemma txn_id_unique_witness :
  ∃ fs out t1 t2, main 0 scenario = (fs, Ok out)
    ∧ transactions out !! 0%nat = Some t1 ∧ transactions out !! 1%nat = Some t2
    ∧ txn_id t1 ≠ txn_id t2.
Proof.
  eexists _, _, _, _. split; [vm_compute; reflexivity|].
  split; [reflexivity|]. split; [reflexivity|].
  eapply (proj2 (proj2 (txn_id_unique 0 scenario _ _ eq_refl)) 0%nat 1%nat);
    [lia|reflexivity|reflexivity].
Defined.

(** C8 (order of the exception list). In a run that ends well, of two
    exceptions the earlier one belongs to the same rule or to a rule that
    comes earlier in the order R003, R004, R005; and two exceptions of one
    rule stand in the order in which their transactions stand in the input. *)
Theorem exception_order now df fs out i j e1 e2 :
  main now df = (fs, Ok out) →
  (i < j)%nat → exceptions out !! i = Some e1 → exceptions out !! j = Some e2 →
  rule_id e1 ∈ ["R003"; "R004"; "R005"]
  ∧ rule_id e2 ∈ ["R003"; "R004"; "R005"]
  ∧ (rule_rank (rule_id e1) ≤ rule_rank (rule_id e2))%nat
  ∧ (rule_id e1 = rule_id e2 →
     ∃ p q t1 t2, (p < q)%nat
       ∧ transactions out !! p = Some t1 ∧ transactions out !! q = Some t2
       ∧ e_txn_id e1 = txn_id t1 ∧ e_txn_id e2 = txn_id t2).
Proof.
  intros Hmain Hij Hi Hj.
  pose proof (main_reconciled _ _ _ _ Hmain) as Hrows.
  apply main_Ok in Hmain as (_ & _ & _ & _ & He & _).
  rewrite He, Hrows in Hi, Hj. clear He Hrows.
  unfold select_unmatched, select_unknown_customers, select_negative_txns in Hi, Hj.
  rewrite filter_fmap_comm, <-list_fmap_compose in Hi, Hj.
  apply lookup_app_Some in Hi as [Hi|[Hi3 Hi]];
    [|apply lookup_app_Some in Hi as [Hi|[Hi4 Hi]]];
    (apply lookup_app_Some in Hj as [Hj|[Hj3 Hj]];
      [|apply lookup_app_Some in Hj as [Hj|[Hj4 Hj]]]);
    try (exfalso; apply lookup_lt_Some in Hi, Hj; lia);
    (split_and!;
     [ made_from Hi; simpl; rewrite !elem_of_cons; auto
     | made_from Hj; simpl; rewrite !elem_of_cons; auto
     | made_from Hi; made_from Hj; vm_compute; lia
     | intros Heq ]).
  - eapply segment_order; [| |exact Hi|exact Hj]; [done|lia].
  - made_from Hi. made_from Hj. done.
  - made_from Hi. made_from Hj. done.
  - eapply segment_order; [| |exact Hi|exact Hj]; [done|lia].
  - made_from Hi. made_from Hj. done.
  - eapply segment_order; [| |exact Hi|exact Hj]; [|lia].
    intros t. simpl. by rewrite reconciled_row_txn.
Qed.

Lemma exception_order_witness :
  ∃ fs out e1 e2, main 0 two_returns = (fs, Ok out)
    ∧ exceptions out !! 0%nat = Some e1 ∧ exceptions out !! 1%nat = Some e2
    ∧ rule_id e1 = rule_id e2
    ∧ ∃ p q t1 t2, (p < q)%nat
        ∧ transactions out !! p = Some t1 ∧ transactions out !! q = Some t2
        ∧ e_txn_id e1 = txn_id t1 ∧ e_txn_id e2 = txn_id t2.
Proof.
  eexists _, _, _, _. split; [vm_compute; reflexivity|].
  split; [reflexivity|]. split; [reflexivity|]. split; [reflexivity|].
  eapply (exception_order 0 two_returns _ _ 0%nat 1%nat);
    [vm_compute; reflexivity|lia|reflexivity|reflexivity|reflexivity].
Defined.

(** C9 (determinism). Two runs on the same input, at whatever times they are
    made, write the same transaction, master, reconciliation and exception
    tables. *)
Theorem determinism now1 now2 df :
  four_tables (main now1 df) = four_tables (main now2 df).
Proof.
  unfold four_tables, main. destruct (normalize df) as [txns|e]; reflexivity.
Qed.

(** C10 (a customer identifier that [int] rejects). When some row has a
    customer identifier that is not null and that [int] rejects, the run
    raises before any file is written: it produces no table at all. *)
Theorem non_coercible_customer_aborts now df row :
  row ∈ df → notnull (customer row) = true →
  (∃ e, py_int (customer row) = Raise e) →
  ∃ e, main now df = ([], Raise e).
Proof.
  intros Hrow Hnn [e He].
  destruct (series_apply_Raise normalize_customer_id (customer <$> df) (customer row))
    as [e' Hap].
  { by apply list_elem_of_fmap_2. }
  { exists e. unfold normalize_customer_id. by rewrite Hnn, He. }
  exists e'. apply main_Raise. unfold normalize. by rewrite Hap.
Qed.

Lemma non_coercible_customer_aborts_witness :
  ∃ e, main 0 alphanumeric_customer = ([], Raise e).
Proof.
  eapply (non_coercible_customer_aborts 0 alphanumeric_customer
            {| invoice := Some "A2"; stockcode := CStr "S3"; description := CStr "d";
               quantity := NFloat 1%float; invoicedate := CDate 0; price := NFloat 1%float;
               customer := CStr "A12"; country := CStr "UK" |}).
  - do 2 right. left.
  - reflexivity.
  - exists ValueError. reflexivity.
Defined.

(** * Further properties of the engine *)

(** ** Rows joined with the derived master set *)

(** The rows of a derived master set that a transaction joins with. *)
Lemma partners_derived txns' t :
  partners t (derive_master txns')
  = match customer_id t with
    | Some c =>
        if decide (Some c ∈ customer_id <$> txns') then [make_master c] else []
    | None => []
    end.
Proof.
  destruct (customer_id t) as [c|] eqn:Hc.
  - case_decide as Hin.
    + pose proof (partners_unique t _ (derive_master_NoDup txns')) as Hlen.
      destruct (partners t (derive_master txns')) as [|m [|m' ms]] eqn:Hp;
        simpl in Hlen; [|f_equal|lia].
      * apply partners_nil in Hp. destruct Hp.
        by rewrite Hc, derive_master_elem.
      * assert (m ∈ partners t (derive_master txns')) as Hm by (rewrite Hp; left).
        apply list_elem_of_filter in Hm as [Hk Hm].
        apply list_elem_of_fmap in Hm as (c' & -> & _).
        simpl in Hk. rewrite Hc in Hk. by simplify_eq.
    + apply partners_nil. by rewrite Hc, derive_master_elem.
  - apply partners_nil. rewrite Hc. apply derive_master_notnull.
Qed.

(** The reconciled row of a transaction of the run itself. *)
Lemma reconciled_row_own txns t :
  t ∈ txns →
  reconciled_row (derive_master txns) t
  = match customer_id t with
    | Some c =>
        {| r_txn := t; r_customer_name := Some ("cust_" +:+ c);
           r_account_status := Some "ACTIVE"; match_status := Some MATCHED |}
    | None =>
        {| r_txn := t; r_customer_name := None; r_account_status := None;
           match_status := Some UNMATCHED |}
    end.
Proof.
  intros Ht. unfold reconciled_row. rewrite partners_derived.
  destruct (customer_id t) as [c|] eqn:Hc; [|done].
  rewrite decide_True; [done|]. rewrite <-Hc. by apply list_elem_of_fmap_2.
Qed.

Lemma main_reconciled_elem now df fs out r :
  main now df = (fs, Ok out) → r ∈ reconciled out →
  r_txn r ∈ transactions out
  ∧ r = reconciled_row (derive_master (transactions out)) (r_txn r).
Proof.
  intros Hmain Hr. pose proof (main_reconciled _ _ _ _ Hmain) as Hrows.
  apply main_Ok in Hmain as (_ & Hm & _).
  rewrite Hrows in Hr. apply list_elem_of_fmap in Hr as (t & -> & Ht).
  by rewrite reconciled_row_txn, Hm.
Qed.

(** X1. In a run that ends well a reconciled row of a transaction with a
    customer is matched and carries that customer's master fields, the name
    "cust_" followed by the identifier and the status ACTIVE; a row of a
    transaction without a customer is unmatched and carries none. *)
Theorem reconciled_master_fields now df fs out r :
  main now df = (fs, Ok out) → r ∈ reconciled out →
  match customer_id (r_txn r) with
  | Some c =>
      match_status r = Some MATCHED
      ∧ r_customer_name r = Some ("cust_" +:+ c)
      ∧ r_account_status r = Some "ACTIVE"
  | None =>
      match_status r = Some UNMATCHED
      ∧ r_customer_name r = None ∧ r_account_status r = None
  end.
Proof.
  intros Hmain Hr.
  destruct (main_reconciled_elem _ _ _ _ _ Hmain Hr) as [Ht Heq].
  rewrite reconciled_row_own in Heq by done.
  destruct (customer_id (r_txn r)); by rewrite Heq.
Qed.

Lemma reconciled_master_fields_witness :
  ∃ fs out r, main 0 scenario = (fs, Ok out) ∧ r ∈ reconciled out
    ∧ match_status r = Some MATCHED
    ∧ r_customer_name r = Some "cust_7"
    ∧ r_account_status r = Some "ACTIVE".
Proof.
  eexists _, _, _. split; [vm_compute; reflexivity|]. split; [left|].
  lazymatch goal with
  | |- match_status ?r = _ ∧ _ =>
      exact (reconciled_master_fields 0 scenario _ _ r eq_refl
               (list_elem_of_here _ _))
  end.
Defined.

(** ** Counting rows *)

Section counting.
Context {A B : Type} (P : A → Prop) (Q : B → Prop).
Context `{∀ x, Decision (P x)} `{∀ y, Decision (Q y)}.

(** Two lists whose rows pass two tests together keep as many rows. *)
Lemma length_filter_Forall2 (l : list A) (k : list B) :
  Forall2 (λ x y, P x ↔ Q y) l k → length (filter P l) = length (filter Q k).
Proof.
  induction 1 as [|x y l k Hxy _ IH]; [done|].
  rewrite !filter_cons.
  destruct (decide (P x)), (decide (Q y)); simpl; try tauto; by rewrite IH.
Qed.
End counting.

(** Rows that pass exactly one of two tests split the list. *)
Lemma length_filter_split {A} (P Q : A → Prop)
    `{∀ x, Decision (P x)} `{∀ x, Decision (Q x)} (l : list A) :
  (∀ x, x ∈ l → (P x ∧ ¬ Q x) ∨ (Q x ∧ ¬ P x)) →
  (length (filter P l) + length (filter Q l) = length l)%nat.
Proof.
  induction l as [|x l IH]; intros Hall; [done|].
  assert (length (filter P l) + length (filter Q l) = length l)%nat as Hl.
  { apply IH. intros y Hy. apply Hall. by right. }
  destruct (Hall x) as [[HP HQ]|[HQ HP]]; [left|..].
  - rewrite (filter_cons_True P), (filter_cons_False Q) by done.
    rewrite !length_cons. lia.
  - rewrite (filter_cons_False P), (filter_cons_True Q) by done.
    rewrite !length_cons. lia.
Qed.

(** ** The transactions against the input rows *)


Lemma normalize_Forall2 df txns :
  normalize df = Ok txns →
  Forall2 (λ row t, normalize_customer_id (customer row) = Ok (customer_id t))
    df txns.
Proof.
  intros Hn. apply Forall2_same_length_lookup_2.
  - symmetry. by apply normalize_length.
  - intros i row t Hrow Ht.
    destruct (normalize_lookup _ _ _ _ Hn Ht) as (row' & Hrow' & _ & Hc & _).
    congruence.
Qed.

(** A customer identifier is normalized to null exactly when it is null. *)
Lemma normalize_customer_id_None x o :
  normalize_customer_id x = Ok o → (o = None ↔ notnull x = false).
Proof.
  unfold normalize_customer_id. destruct (notnull x).
  - destruct (py_int x); simpl; [|done]. intros [= <-]. split; done.
  - intros [= <-]. split; done.
Qed.

(** ** Exceptions against transactions *)

(** The exceptions of a run that ends well, all told. *)
Lemma main_exceptions now df fs out :
  main now df = (fs, Ok out) →
  exceptions out
  = ((r004_exception <$> select_negative_txns (transactions out))
     ++ (r005_exception <$> select_unmatched (reconciled out)))%list.
Proof.
  intros (_ & Hm & _ & _ & He & _)%main_Ok.
  by rewrite He, Hm, unknown_customers_none.
Qed.

(** X2. In a run that ends well every exception is an R004 or an R005 of
    severity high (none is blocking); it names a transaction of the run and
    carries that transaction's customer identifier; the transaction of an
    R004 has a negative amount, that of an R005 has no customer. *)
Theorem exception_integrity now df fs out e :
  main now df = (fs, Ok out) → e ∈ exceptions out →
  severity e = "high"
  ∧ ∃ t, t ∈ transactions out
      ∧ e_txn_id e = txn_id t ∧ e_customer_id e = customer_id t
      ∧ ((rule_id e = "R004" ∧ lt_zero (amount t) = true)
         ∨ (rule_id e = "R005" ∧ customer_id t = None)).
Proof.
  intros Hmain He. rewrite (main_exceptions _ _ _ _ Hmain) in He.
  apply elem_of_app in He as [He|He].
  - apply list_elem_of_fmap in He as (t & -> & Ht).
    apply list_elem_of_filter in Ht as [Hneg Ht].
    split; [done|]. exists t. split_and!; [done..|].
    left. split; [done|by apply Is_true_true].
  - apply list_elem_of_fmap in He as (r & -> & Hr).
    apply list_elem_of_filter in Hr as [Hun Hr].
    destruct (main_reconciled_elem _ _ _ _ _ Hmain Hr) as [Ht Heq].
    split; [done|]. exists (r_txn r). split_and!; [done..|].
    right. split; [done|].
    rewrite reconciled_row_own in Heq by done.
    destruct (customer_id (r_txn r)); [|done].
    rewrite Heq in Hun. done.
Qed.

Lemma exception_integrity_witness :
  ∃ fs out e, main 0 scenario = (fs, Ok out) ∧ e ∈ exceptions out
    ∧ severity e = "high"
    ∧ ∃ t, t ∈ transactions out
        ∧ e_txn_id e = txn_id t ∧ e_customer_id e = customer_id t
        ∧ ((rule_id e = "R004" ∧ lt_zero (amount t) = true)
           ∨ (rule_id e = "R005" ∧ customer_id t = None)).
Proof.
  eexists _, _, _. split; [vm_compute; reflexivity|]. split; [left|].
  eapply (exception_integrity 0 scenario); [vm_compute; reflexivity|left].
Defined.

(** Rows with distinct keys keep distinct keys under a filter. *)
Lemma NoDup_fmap_filter {A B} (f : A → B) (P : A → Prop) `{∀ x, Decision (P x)}
    (l : list A) :
  NoDup (f <$> l) → NoDup (f <$> filter P l).
Proof.
  intros Hnd. apply NoDup_fmap_2_strong.
  - intros x y [_ Hx]%list_elem_of_filter [_ Hy]%list_elem_of_filter.
    by apply (NoDup_fmap_elem_inj f l).
  - by apply NoDup_filter, (NoDup_fmap_1 f).
Qed.

Lemma main_reconciled_txn_id_NoDup now df fs out :
  main now df = (fs, Ok out) → NoDup ((txn_id ∘ r_txn) <$> reconciled out).
Proof.
  intros Hmain. pose proof (main_reconciled _ _ _ _ Hmain) as Hrows.
  apply main_Ok in Hmain as (Hn & _).
  rewrite Hrows, <-list_fmap_compose.
  erewrite list_fmap_ext; [by eapply normalize_txn_id_NoDup|].
  intros _ t _. simpl. by rewrite reconciled_row_txn.
Qed.

(** X3. In a run that ends well no rule reports a transaction twice: the
    pairs of a rule and a [txn_id] of the exception list are pairwise
    distinct. *)
Theorem exceptions_once_per_rule now df fs out :
  main now df = (fs, Ok out) →
  NoDup ((λ e, (rule_id e, e_txn_id e)) <$> exceptions out).
Proof.
  intros Hmain. rewrite (main_exceptions _ _ _ _ Hmain).
  pose proof (main_reconciled_txn_id_NoDup _ _ _ _ Hmain) as Hrec.
  apply main_Ok in Hmain as (Hn & _).
  rewrite fmap_app, <-!list_fmap_compose. apply NoDup_app. split_and!.
  - change ((λ e, (rule_id e, e_txn_id e)) ∘ r004_exception)
      with (pair "R004" ∘ txn_id).
    rewrite list_fmap_compose. apply NoDup_fmap_2_strong; [by intros ???? [=]|].
    by eapply NoDup_fmap_filter, normalize_txn_id_NoDup.
  - intros p (t & -> & _)%list_elem_of_fmap (r & Heq & _)%list_elem_of_fmap.
    done.
  - change ((λ e, (rule_id e, e_txn_id e)) ∘ r005_exception)
      with (pair "R005" ∘ (txn_id ∘ r_txn)).
    rewrite list_fmap_compose. apply NoDup_fmap_2_strong; [by intros ???? [=]|].
    by apply NoDup_fmap_filter.
Qed.

Lemma exceptions_once_per_rule_witness :
  ∃ fs out, main 0 two_returns = (fs, Ok out)
    ∧ NoDup ((λ e, (rule_id e, e_txn_id e)) <$> exceptions out).
Proof.
  eexists _, _. split; [vm_compute; reflexivity|].
  eapply (exceptions_once_per_rule 0 two_returns). vm_compute; reflexivity.
Defined.

(** In a run a reconciled row is unmatched exactly when the row of the
    input it comes from has no customer identifier. *)
Lemma main_unmatched_Forall2 now df fs out :
  main now df = (fs, Ok out) →
  Forall2 (λ r row, match_status r = Some UNMATCHED ↔ notnull (customer row) = false)
    (reconciled out) df.
Proof.
  intros Hmain. pose proof (main_reconciled _ _ _ _ Hmain) as Hrows.
  apply main_Ok in Hmain as (Hn & Hm & _).
  apply Forall2_same_length_lookup_2.
  - rewrite Hrows, length_fmap. by apply normalize_length.
  - intros i r row Hr Hrow. rewrite Hrows in Hr.
    apply list_lookup_fmap_Some in Hr as (t & -> & Ht).
    destruct (normalize_lookup _ _ _ _ Hn Ht) as (row' & Hrow' & _ & Hc & _).
    assert (row' = row) as -> by congruence.
    rewrite <-(normalize_customer_id_None _ _ Hc), Hm.
    rewrite reconciled_row_own by (by eapply list_elem_of_lookup_2).
    by destruct (customer_id t).
Qed.

(** X4. The summary of a run that ends well adds up: the transactions are
    as many as the input rows; matched and unmatched rows together are all
    the transactions; the unmatched rows are as many as the input rows
    without a customer identifier; the exceptions are as many as the
    negative amounts and the unmatched rows together. *)
Theorem summary_adds_up now df fs out :
  main now df = (fs, Ok out) →
  total_transactions (summary out) = length df
  ∧ (matched (summary out) + unmatched (summary out)
     = total_transactions (summary out))%nat
  ∧ unmatched (summary out)
    = length (filter (λ row, notnull (customer row) = false) df)
  ∧ (total_exceptions (summary out)
     = length (select_negative_txns (transactions out)) + unmatched (summary out))%nat.
Proof.
  intros Hmain. pose proof (main_reconciled _ _ _ _ Hmain) as Hrows.
  pose proof (main_exceptions _ _ _ _ Hmain) as He.
  pose proof (main_unmatched_Forall2 _ _ _ _ Hmain) as Hun.
  apply main_Ok in Hmain as (Hn & _).
  unfold summary; simpl. split_and!.
  - by apply normalize_length.
  - rewrite length_filter_split; [by rewrite Hrows, length_fmap|].
    intros r Hr. rewrite Hrows in Hr.
    apply list_elem_of_fmap in Hr as (t & -> & _).
    destruct (reconciled_row_status_cases (master out) t) as [-> | ->];
      [left|right]; done.
  - by apply length_filter_Forall2.
  - rewrite He, length_app, !length_fmap. done.
Qed.

Lemma summary_adds_up_witness :
  ∃ fs out, main 0 scenario = (fs, Ok out)
    ∧ summary out
      = {| total_transactions := 2; matched := 1; unmatched := 1;
           total_exceptions := 2 |}
    ∧ (matched (summary out) + unmatched (summary out)
       = total_transactions (summary out))%nat.
Proof.
  eexists _, _. split; [vm_compute; reflexivity|]. split; [reflexivity|].
  eapply (summary_adds_up 0 scenario). vm_compute; reflexivity.
Defined.

(** ** The Data-Quality Auditor *)

Lemma length_filter_fmap_ext {A B} (g : A → B) (P : B → Prop) (Q : A → Prop)
    `{∀ y, Decision (P y)} `{∀ x, Decision (Q x)} (l : list A) :
  (∀ x, P (g x) ↔ Q x) → length (filter P (g <$> l)) = length (filter Q l).
Proof.
  intros HPQ. rewrite filter_fmap_comm, length_fmap.
  f_equal. apply list_filter_iff. intros x. apply HPQ.
Qed.

Lemma null_count_fmap_le {A} (g : A → cell) (l : list A) :
  (length (filter (λ c, isnull c) (g <$> l)) ≤ length l)%nat.
Proof. rewrite <-(length_fmap g l). apply length_filter. Qed.

Lemma null_count_notnull {A} (g : A → cell) (l : list A) :
  (∀ x, notnull (g x) = true) → length (filter (λ c, isnull c) (g <$> l)) = 0%nat.
Proof.
  intros Hg. rewrite filter_fmap_none; [done|].
  intros x. unfold isnull. rewrite Hg. simpl. tauto.
Qed.

Lemma null_count_master_key txns :
  length (filter (λ c, isnull c) ((opt_cell ∘ m_customer_id) <$> derive_master txns))
  = 0%nat.
Proof.
  unfold derive_master. rewrite <-list_fmap_compose.
  by apply null_count_notnull.
Qed.

(** X5. In the data-quality report of a run that ends well every row bears
    the time of the run and a count that is at most the number of input
    rows; the counts of the master table are all zero, as is that of
    [txn_id]; the count of [customer_id] in the transactions is the number
    of input rows without a customer identifier, and the count of [amount]
    the number of transactions whose amount is missing. *)
Theorem dq_report_counts now df fs out f :
  main now df = (fs, Ok out) → f ∈ dq_report out →
  timestamp f = now
  ∧ (null_count f ≤ length df)%nat
  ∧ (table f = "master_records" → null_count f = 0%nat)
  ∧ (table f = "transactions" → column f = "txn_id" → null_count f = 0%nat)
  ∧ (table f = "transactions" → column f = "customer_id" →
     null_count f = length (filter (λ row, notnull (customer row) = false) df))
  ∧ (table f = "transactions" → column f = "amount" →
     null_count f
     = length (filter (λ t, isnull (num_cell (amount t)) = true) (transactions out))).
Proof.
  intros (Hn & Hm & Hdq & _)%main_Ok Hf.
  pose proof (normalize_length _ _ Hn) as Hlen.
  assert (length (filter (λ c, isnull c)
                    ((opt_cell ∘ customer_id) <$> transactions out))
          = length (filter (λ row, notnull (customer row) = false) df)) as Hcust.
  { rewrite (length_filter_fmap_ext _ _ (λ t, customer_id t = None)).
    - symmetry. apply length_filter_Forall2.
      eapply Forall2_impl; [by apply normalize_Forall2|].
      intros row t Hc. simpl. by rewrite (normalize_customer_id_None _ _ Hc).
    - intros t. simpl. by destruct (customer_id t). }
  assert (length (filter (λ c, isnull c) ((num_cell ∘ amount) <$> transactions out))
          = length (filter (λ t, isnull (num_cell (amount t)) = true)
                      (transactions out))) as Hamount.
  { apply length_filter_fmap_ext. intros t. simpl.
    destruct (isnull (num_cell (amount t))); simpl; naive_solver. }
  rewrite Hdq, Hm in Hf.
  unfold build_dq_report, check_nulls, master_frame, transactions_frame in Hf.
  rewrite <-Hlen.
  simpl in Hf. rewrite !elem_of_cons, elem_of_nil in Hf.
  repeat (destruct Hf as [->|Hf]); [..|done]; simpl;
    rewrite ?null_count_master_key, ?null_count_notnull by done;
    (split_and!; [done|lia || apply null_count_fmap_le|try done..]).
  all: try (intros; done).
Qed.

Lemma dq_report_counts_witness :
  ∃ fs out f, main 5 scenario = (fs, Ok out) ∧ f ∈ dq_report out
    ∧ timestamp f = 5 ∧ (null_count f ≤ length scenario)%nat.
Proof.
  eexists _, _, _. split; [vm_compute; reflexivity|]. split; [left|].
  split; eapply (dq_report_counts 5 scenario); first [vm_compute; reflexivity|left].
Defined.

(** ** Duplicated rows, in a run *)

(** X6. The duplicate check of the Auditor finds nothing exactly when the
    keys of the table are pairwise distinct; a row it finds is a row of the
    table whose key occurs more than once. *)
Theorem duplicated_rows_empty_iff {A K} `{EqDecision K} (key : A → K)
    (rows : list A) :
  (duplicated_rows key rows = [] ↔ NoDup (key <$> rows))
  ∧ (∀ r, r ∈ duplicated_rows key rows ↔
       r ∈ rows
       ∧ (2 ≤ length (filter (λ k', k' = key r) (key <$> rows)))%nat).
Proof.
  rewrite duplicated_rows_filter. split.
  - rewrite filter_empty_iff, NoDup_occurrences. split.
    + intros Hnone k (r & -> & Hr)%list_elem_of_fmap.
      specialize (Hnone r Hr). lia.
    + intros Hall r Hr. pose proof (Hall (key r) (list_elem_of_fmap_2 _ _ _ Hr)). lia.
  - intros r. rewrite list_elem_of_filter. split; intros [? ?]; split; done || lia.
Qed.

(** X7. In a run that ends well the Auditor finds no duplicated row, in the
    master set or among the transactions. *)
Theorem run_has_no_duplicates now df fs out :
  main now df = (fs, Ok out) → dup_master out = [] ∧ dup_txn out = [].
Proof.
  intros Hmain. destruct (main_dups _ _ _ _ Hmain) as [-> ->].
  apply main_Ok in Hmain as (Hn & Hm & _).
  rewrite !duplicated_rows_filter, !filter_empty_iff. split.
  - intros m Hin. rewrite Hm in *.
    pose proof (proj1 (NoDup_occurrences _) (derive_master_NoDup (transactions out))
                  (m_customer_id m) (list_elem_of_fmap_2 _ _ _ Hin)). lia.
  - intros t Hin.
    pose proof (proj1 (NoDup_occurrences _) (normalize_txn_id_NoDup _ _ Hn)
                  (txn_id t) (list_elem_of_fmap_2 _ _ _ Hin)). lia.
Qed.

Lemma run_has_no_duplicates_witness :
  ∃ fs out, main 0 two_returns = (fs, Ok out)
    ∧ dup_master out = [] ∧ dup_txn out = [].
Proof.
  eexists _, _. split; [vm_compute; reflexivity|].
  eapply (run_has_no_duplicates 0 two_returns). vm_compute; reflexivity.
Defined.

(** ** Which exception ends the run *)

Lemma series_apply_first_Raise {A B} (f : A → result B) (l1 l2 : list A) x e :
  (∀ y, y ∈ l1 → ∃ o, f y = Ok o) → f x = Raise e →
  series_apply f (l1 ++ x :: l2) = Raise e.
Proof.
  intros Hok Hx. induction l1 as [|y l1 IH]; simpl.
  - by rewrite Hx.
  - destruct (Hok y) as [o ->]; [left|]. simpl.
    rewrite IH; [done|]. intros y' Hy'. apply Hok. by right.
Qed.

(** X8. The run raises the exception of the first row whose customer
    identifier [int] rejects, whatever the rows after it, and writes no
    file. *)
Theorem first_error_wins now pre row post e :
  (∀ r, r ∈ pre → ∃ o, normalize_customer_id (customer r) = Ok o) →
  normalize_customer_id (customer row) = Raise e →
  main now (pre ++ row :: post) = ([], Raise e).
Proof.
  intros Hpre Hrow. apply main_Raise. unfold normalize.
  rewrite fmap_app, fmap_cons.
  rewrite (series_apply_first_Raise _ _ _ _ e); [done| |done].
  intros c (r & -> & Hr)%list_elem_of_fmap. by apply Hpre.
Qed.

Lemma first_error_wins_witness :
  main 0 (scenario ++ infinite_customer :: alphanumeric_customer)%list
  = ([], Raise OverflowError).
Proof.
  apply (first_error_wins 0 scenario infinite_customer alphanumeric_customer).
  - intros r Hr. repeat (apply elem_of_cons in Hr as [->|Hr]);
      [by eexists..|by apply elem_of_nil in Hr].
  - reflexivity.
Defined.

(** ** The Master Deriver *)

Lemma drop_duplicates_from_snoc seen l x :
  drop_duplicates_from seen (l ++ [x])
  = (drop_duplicates_from seen l
     ++ if decide (x ∈ seen ∨ x ∈ l) then [] else [x])%list.
Proof.
  revert seen. induction l as [|y l IH]; intros seen; simpl.
  - destruct (decide (x ∈ seen)) as [Hx|Hx].
    + rewrite decide_True; [done|by left].
    + rewrite decide_False; [done|]. intros [?|?%elem_of_nil]; done.
  - destruct (decide (y ∈ seen)) as [Hy|Hy]; rewrite IH.
    + f_equal. apply decide_ext. rewrite elem_of_cons.
      split; [tauto|]. intros [?|[->|?]]; tauto.
    + simpl. f_equal. f_equal. apply decide_ext.
      rewrite elem_of_cons, elem_of_union, elem_of_singleton. tauto.
Qed.

Lemma drop_duplicates_from_length seen l :
  (length (drop_duplicates_from seen l) ≤ length l)%nat.
Proof.
  revert seen. induction l as [|x l IH]; intros seen; simpl; [done|].
  case_decide; simpl; [etrans; [apply IH|lia]|]. apply le_n_S, IH.
Qed.

Lemma dropna_length l : (length (dropna l) ≤ length l)%nat.
Proof.
  unfold dropna. induction l as [|[x|] l IH]; csimpl; simpl; lia.
Qed.

(** X9. The master set grows in the order customers are first seen: a
    further transaction adds one record, at the end, when its customer
    identifier is not null and was not seen before, and adds nothing
    otherwise. *)
Theorem derive_master_snoc txns t :
  derive_master (txns ++ [t])
  = (derive_master txns
     ++ match customer_id t with
        | Some c =>
            if decide (Some c ∈ customer_id <$> txns) then [] else [make_master c]
        | None => []
        end)%list.
Proof.
  unfold derive_master, drop_duplicates, dropna.
  rewrite fmap_app, omap_app. simpl.
  destruct (customer_id t) as [c|]; simpl.
  - rewrite drop_duplicates_from_snoc, fmap_app. f_equal.
    fold (dropna (customer_id <$> txns)).
    destruct (decide (Some c ∈ customer_id <$> txns)) as [Hin|Hin].
    + rewrite decide_True; [done|]. right. by apply dropna_elem.
    + rewrite decide_False; [done|].
      intros [Hc|Hc]; [by apply not_elem_of_empty in Hc|].
      by apply dropna_elem in Hc.
  - by rewrite !app_nil_r.
Qed.

(** X10. The master set holds exactly one record for every customer
    identifier of the transactions, named "cust_" followed by the
    identifier and of status ACTIVE; it is empty when no transaction has a
    customer, and never longer than the transaction list. *)
Theorem derive_master_records txns :
  (∀ m, m ∈ derive_master txns
        ↔ ∃ c, Some c ∈ customer_id <$> txns
               ∧ m = {| m_customer_id := Some c; customer_name := "cust_" +:+ c;
                        account_status := "ACTIVE" |})
  ∧ NoDup (derive_master txns)
  ∧ (derive_master txns = [] ↔ ∀ t, t ∈ txns → customer_id t = None)
  ∧ (length (derive_master txns) ≤ length txns)%nat.
Proof.
  split_and!.
  - intros m. unfold derive_master. rewrite list_elem_of_fmap. split.
    + intros (c & -> & Hc). exists c. split; [|done].
      by apply dropna_elem, drop_duplicates_elem.
    + intros (c & Hc & ->). exists c. split; [done|].
      by apply drop_duplicates_elem, dropna_elem.
  - eapply NoDup_fmap_1, derive_master_NoDup.
  - unfold derive_master. split.
    + intros Hnil%fmap_nil_inv t Ht.
      destruct (customer_id t) as [c|] eqn:Hc; [|done].
      assert (c ∈ drop_duplicates (dropna (customer_id <$> txns))) as Hin.
      { rewrite drop_duplicates_elem, dropna_elem, <-Hc.
        by apply list_elem_of_fmap_2. }
      rewrite Hnil in Hin. by apply elem_of_nil in Hin.
    + intros Hall.
      destruct (drop_duplicates (dropna (customer_id <$> txns))) as [|c cs] eqn:Hd;
        [done|].
      assert (c ∈ drop_duplicates (dropna (customer_id <$> txns))) as Hin
        by (rewrite Hd; left).
      rewrite drop_duplicates_elem, dropna_elem in Hin.
      apply list_elem_of_fmap in Hin as (t & Hc & Ht).
      rewrite (Hall t Ht) in Hc. done.
  - unfold derive_master, drop_duplicates. rewrite length_fmap.
    etrans; [apply drop_duplicates_from_length|].
    etrans; [apply dropna_length|]. by rewrite length_fmap.
Qed.

(** ** Customer identifiers are canonical *)

(** X12. Two customer identifiers that are not null and that [int] accepts
    are normalized to the same [customer_id] exactly when their integer
    values are equal, however they are written. *)
Theorem customer_id_canonical x y n m :
  notnull x = true → notnull y = true →
  py_int x = Ok n → py_int y = Ok m →
  normalize_customer_id x = Ok (Some (py_str_int n))
  ∧ (normalize_customer_id x = normalize_customer_id y ↔ n = m).
Proof.
  intros Hx Hy Hn Hm. unfold normalize_customer_id.
  rewrite Hx, Hy, Hn, Hm. simpl. split; [done|]. split.
  - intros [= Heq]. by apply (inj pretty) in Heq.
  - by intros ->.
Qed.

Lemma customer_id_canonical_witness :
  normalize_customer_id (CFloat 17850%float) = Ok (Some "17850")
  ∧ (normalize_customer_id (CFloat 17850%float)
       = normalize_customer_id (CStr " 17_850 ")
     ↔ 17850 = 17850).
Proof.
  apply (customer_id_canonical (CFloat 17850%float) (CStr " 17_850 ") 17850 17850);
    reflexivity.
Defined.

(** X13. A float customer identifier never makes [int] raise a
    [ValueError]: NaN is null and is normalized to null; otherwise the
    identifier is normalized to a decimal string, unless it is infinite,
    the only case in which the conversion raises ([OverflowError]). *)
Theorem float_customer_id x :
  (PrimFloat.is_nan x = true ∧ normalize_customer_id (CFloat x) = Ok None)
  ∨ (PrimFloat.is_nan x = false
     ∧ ((PrimFloat.is_infinity x = true
         ∧ normalize_customer_id (CFloat x) = Raise OverflowError)
        ∨ ∃ n, normalize_customer_id (CFloat x) = Ok (Some (py_str_int n)))).
Proof.
  unfold normalize_customer_id, notnull, py_int, int_of_float, Prim2SF.
  destruct (PrimFloat.is_nan x); [by left|right]. split; [done|]. simpl.
  destruct (PrimFloat.is_zero x); [right; eexists; reflexivity|].
  destruct (PrimFloat.is_infinity x); [by left|right].
  destruct (Z.frexp x) as [r ex].
  destruct (shr_fexp _ _ _ _ _) as [shr e'].
  destruct (shr_m shr); eexists; reflexivity.
Qed.

(** ** The Reconciler against any master table *)

(** X14. Against any master table the left merge keeps every transaction,
    in order, once when no row of the table has its key and otherwise once
    per such row; so it never drops a transaction, and it repeats one only
    when its key is duplicated in the table. Every row it makes has a match
    status: matched with the fields of a row of the table that has the
    transaction's key, or unmatched without master fields when the table
    has no such row. *)
Theorem reconcile_any_master left right :
  r_txn <$> reconcile left right
    = (left ≫= λ t, replicate (Nat.max 1 (length (partners t right))) t)
  ∧ (length left ≤ length (reconcile left right))%nat
  ∧ (∀ r, r ∈ reconcile left right →
       r_txn r ∈ left
       ∧ ((match_status r = Some MATCHED
           ∧ ∃ m, m ∈ right ∧ m_customer_id m = customer_id (r_txn r)
                  ∧ r_customer_name r = Some (customer_name m)
                  ∧ r_account_status r = Some (account_status m))
          ∨ (match_status r = Some UNMATCHED
             ∧ (customer_id (r_txn r) ∉ m_customer_id <$> right)
             ∧ r_customer_name r = None ∧ r_account_status r = None))).
Proof.
  split_and!.
  - induction left as [|t left IH]; [done|].
    rewrite reconcile_cons, fmap_app, bind_cons, IH. f_equal.
    destruct (partners t right) as [|m ms]; [done|].
    rewrite <-list_fmap_compose. simpl. f_equal.
    induction ms as [|m' ms IHms]; [done|]. simpl. by f_equal.
  - induction left as [|t left IH]; [done|].
    rewrite reconcile_cons, length_app. simpl.
    destruct (partners t right); simpl; lia.
  - apply reconcile_elem.
Qed.

(** X15. Against a master table without a null key, a reconciled row is
    unmatched exactly when its transaction has no customer or is one that
    rule R003 selects: the unmatched rows are the transactions without a
    customer together with those of unknown customers. *)
Theorem unmatched_is_null_or_unknown txns master r :
  None ∉ m_customer_id <$> master → r ∈ reconcile txns master →
  (match_status r = Some UNMATCHED
   ↔ customer_id (r_txn r) = None
     ∨ r_txn r ∈ select_unknown_customers txns master).
Proof.
  intros Hnn Hr.
  destruct (reconcile_elem txns master r Hr)
    as [Ht [(Hst & m & Hm & Hk & _)|(Hst & Hk & _)]].
  - split; [rewrite Hst; intros [=]|]. intros [Hnone|Hunk].
    + destruct Hnn. rewrite <-Hnone, <-Hk. by apply list_elem_of_fmap_2.
    + apply list_elem_of_filter in Hunk as [Hunk _].
      apply andb_True in Hunk as [_ Hnot]. apply negb_True in Hnot.
      destruct Hnot. unfold isin. rewrite bool_decide_spec, <-Hk.
      by apply list_elem_of_fmap_2.
  - split; [intros _|done].
    destruct (customer_id (r_txn r)) as [c|] eqn:Hc; [right|by left].
    apply list_elem_of_filter. split; [|done].
    rewrite Hc. apply andb_True. split; [done|].
    apply negb_True. unfold isin. by rewrite bool_decide_spec.
Qed.

Lemma unmatched_is_null_or_unknown_witness :
  ∃ r, r ∈ reconcile [txn_of_7; txn_of_nobody] [make_master "8"]
    ∧ (match_status r = Some UNMATCHED
       ↔ customer_id (r_txn r) = None
         ∨ r_txn r ∈ select_unknown_customers [txn_of_7; txn_of_nobody]
                       [make_master "8"]).
Proof.
  eexists. split; [left|].
  apply (unmatched_is_null_or_unknown [txn_of_7; txn_of_nobody] [make_master "8"]).
  - intros H. apply list_elem_of_singleton in H. discriminate H.
  - left.
Defined.

(** ** The Normalizer, row by row *)



(** ** [check_nulls] on any frame *)

(** X17. [check_nulls] makes one row per column of the frame, in the order
    of the columns and under the table name it is given; the count of a
    column is at most the number of its values, and is zero exactly when
    none of them is null. *)
Theorem check_nulls_rows (df : frame) (name : string) :
  (λ r, r.1.1) <$> check_nulls df name = fst <$> df
  ∧ Forall2 (λ r col,
       r.2 = name ∧ r.1.1 = col.1
       ∧ (r.1.2 ≤ length col.2)%nat
       ∧ (r.1.2 = 0%nat ↔ ∀ c, c ∈ col.2 → notnull c = true))
      (check_nulls df name) df.
Proof.
  unfold check_nulls. split.
  - by rewrite <-list_fmap_compose.
  - apply Forall2_fmap_l, Forall_Forall2_diag, Forall_forall.
    intros [col vals] _. simpl. split_and!; [done|done|apply length_filter|].
    rewrite length_zero_iff_nil, filter_empty_iff. unfold isnull.
    split; intros Hall c Hc; specialize (Hall c Hc);
      destruct (notnull c); simpl in *; done || tauto.
Qed.

(** ** All the files, or none *)

Lemma series_apply_Raise_inv {A B} (f : A → result B) (l : list A) e :
  series_apply f l = Raise e → ∃ x, x ∈ l ∧ f x = Raise e.
Proof.
  induction l as [|x l IH]; simpl; [done|].
  destruct (f x) as [y|e'] eqn:Hx; simpl.
  - destruct (series_apply f l) as [ys|e'']; simpl; [done|].
    intros [= ->]. destruct IH as (x' & Hx' & He'); [done|].
    exists x'. split; [by right|done].
  - intros [= ->]. exists x. split; [left|done].
Qed.

Lemma series_apply_Ok_inv {A B} (f : A → result B) (l : list A) ys x :
  series_apply f l = Ok ys → x ∈ l → ∃ y, f x = Ok y.
Proof.
  intros Hap [i Hi]%list_elem_of_lookup_1.
  destruct (series_apply_lookup f l ys i x Hap Hi) as (y & _ & Hy). eauto.
Qed.

(** X18. A run writes its six files, one after the other and all of them,
    or it writes none: it ends well when [int] accepts every customer
    identifier that is not null, and otherwise raises, before any file is
    written, an exception that [int] raised on such an identifier. *)
Theorem all_or_nothing now df :
  (∃ out, main now df = (files_of out, Ok out)
     ∧ fst <$> files_of out
       = [ transactions_csv; master_records_csv; reconciliation_rules_csv;
           data_quality_report_csv; reconciliation_results_csv;
           exceptions_report_csv ]
     ∧ ∀ row, row ∈ df → notnull (customer row) = true →
              ∃ n, py_int (customer row) = Ok n)
  ∨ (∃ e row, main now df = ([], Raise e)
       ∧ row ∈ df ∧ notnull (customer row) = true
       ∧ py_int (customer row) = Raise e).
Proof.
  destruct (series_apply normalize_customer_id (customer <$> df)) as [cids|e]
    eqn:Hap.
  - left. destruct (main now df) as [fs [out|e]] eqn:Hmain.
    + exists out. split_and!.
      * by apply main_Ok in Hmain as (_ & _ & _ & _ & _ & ->).
      * done.
      * intros row Hrow Hnn.
        destruct (series_apply_Ok_inv _ _ _ (customer row) Hap) as [o Ho];
          [by apply list_elem_of_fmap_2|].
        unfold normalize_customer_id in Ho. rewrite Hnn in Ho.
        destruct (py_int (customer row)) as [n|]; [by eexists|done].
    + unfold main, normalize in Hmain. rewrite Hap in Hmain. done.
  - right. destruct (series_apply_Raise_inv _ _ _ Hap) as (c & Hc & He).
    apply list_elem_of_fmap in Hc as (row & -> & Hrow).
    exists e, row. split_and!; [|done|..].
    + apply main_Raise. unfold normalize. by rewrite Hap.
    + unfold normalize_customer_id in He.
      by destruct (notnull (customer row)).
    + unfold normalize_customer_id in He.
      destruct (notnull (customer row)); [|done].
      destruct (py_int (customer row)); simpl in He; by inversion He.
Qed.
